(** * dump978: the sample-to-message pipeline, embedded and verified

    A shallow embedding of the UAT receiver core: protocol constants
    (uat_protocol.h), the CS16H table arctangent (convert.cc), the
    demodulator and the single-threaded receiver (demodulator.cc), the
    FEC front end (fec.cc) and the raw line parser (socket_input.cc).

    Machine integers are [Z] with the wrap-around written where the C++
    narrows or wraps; byte vectors and phase buffers are lists indexed
    with stdpp's lookup and insert. *)

From Stdlib Require Import ZArith Lia Bool String Ascii.
From stdpp Require Import base list strings gmap sorting.

Local Open Scope Z_scope.

(** ** uat_protocol.h *)

Definition SYNC_BITS : Z := 36.
Definition DOWNLINK_SYNC_WORD : Z := 0xEACDDA4E2.
Definition UPLINK_SYNC_WORD : Z := 0x153225B1D.

Definition DOWNLINK_SHORT_DATA_BITS : Z := 144.
Definition DOWNLINK_SHORT_DATA_BYTES : Z := DOWNLINK_SHORT_DATA_BITS / 8.
Definition DOWNLINK_SHORT_BITS : Z := DOWNLINK_SHORT_DATA_BITS + 96.
Definition DOWNLINK_SHORT_BYTES : Z := DOWNLINK_SHORT_BITS / 8.

Definition DOWNLINK_LONG_DATA_BITS : Z := 272.
Definition DOWNLINK_LONG_DATA_BYTES : Z := DOWNLINK_LONG_DATA_BITS / 8.
Definition DOWNLINK_LONG_BITS : Z := 272 + 112.
Definition DOWNLINK_LONG_BYTES : Z := DOWNLINK_LONG_BITS / 8.

Definition UPLINK_BLOCK_DATA_BITS : Z := 576.
Definition UPLINK_BLOCK_DATA_BYTES : Z := UPLINK_BLOCK_DATA_BITS / 8.
Definition UPLINK_BLOCK_BITS : Z := UPLINK_BLOCK_DATA_BITS + 160.
Definition UPLINK_BLOCK_BYTES : Z := UPLINK_BLOCK_BITS / 8.

Definition UPLINK_BLOCKS_PER_FRAME : Z := 6.
Definition UPLINK_DATA_BITS : Z := UPLINK_BLOCK_DATA_BITS * UPLINK_BLOCKS_PER_FRAME.
Definition UPLINK_DATA_BYTES : Z := UPLINK_DATA_BITS / 8.
Definition UPLINK_BITS : Z := UPLINK_BLOCK_BITS * UPLINK_BLOCKS_PER_FRAME.
Definition UPLINK_BYTES : Z := UPLINK_BITS / 8.

(** namespace fec: the Reed-Solomon parameters *)
Module fec.
Definition DOWNLINK_SHORT_POLY : Z := 0x187.
Definition DOWNLINK_LONG_POLY : Z := 0x187.
Definition UPLINK_BLOCK_POLY : Z := 0x187.

Definition DOWNLINK_SHORT_ROOTS : Z := 12.
Definition DOWNLINK_LONG_ROOTS : Z := 14.
Definition UPLINK_BLOCK_ROOTS : Z := 20.
Definition DOWNLINK_SHORT_PAD : Z := 255 - DOWNLINK_SHORT_BYTES.
Definition DOWNLINK_LONG_PAD : Z := 255 - DOWNLINK_LONG_BYTES.
Definition UPLINK_BLOCK_PAD : Z := 255 - UPLINK_BLOCK_BYTES.
End fec.

(** ** Fixed-width conversions *)

(** value kept by a conversion to std::int16_t *)
Definition to_int16 (v : Z) : Z := (v + 32768) mod 65536 - 32768.
(** value kept by a conversion to std::uint16_t *)
Definition to_uint16 (v : Z) : Z := v mod 65536.
(** value kept by a conversion to std::uint32_t *)
Definition to_uint32 (v : Z) : Z := v mod 2 ^ 32.
(** value kept by a conversion to std::uint64_t *)
Definition to_uint64 (v : Z) : Z := v mod 2 ^ 64.

Definition is_int16 (v : Z) : Prop := -32768 <= v <= 32767.
Definition is_uint16 (v : Z) : Prop := 0 <= v < 65536.
Definition is_uint64 (v : Z) : Prop := 0 <= v < 2 ^ 64.

(** ** demodulator.cc: PhaseDifference and SyncWordMatch *)

Definition PhaseDifference (from to : Z) : Z :=
  let difference := to - from in
  if 32768 <=? difference then to_int16 (difference - 65536)
  else if difference <? -32768 then to_int16 (difference + 65536)
  else to_int16 difference.

(** [diff &= (diff - 1)] on a 64-bit unsigned value *)
Definition clear_lowest (diff : Z) : Z := Z.land diff (to_uint64 (diff - 1)).

Definition SyncWordMatch (word expected : Z) : bool :=
  if word =? expected then true
  else
    let diff := Z.lxor word expected in
    let diff := clear_lowest diff in
    if diff =? 0 then true
    else
      let diff := clear_lowest diff in
      if diff =? 0 then true
      else
        let diff := clear_lowest diff in
        if diff =? 0 then true
        else
          let diff := clear_lowest diff in
          if diff =? 0 then true
          else false.

(** Number of set bits of a non-negative integer (the reference the
    bit-twiddling test is compared with). *)
Fixpoint Pos_popcount (p : positive) : Z :=
  match p with
  | xH => 1
  | xO q => Pos_popcount q
  | xI q => 1 + Pos_popcount q
  end.

Definition popcount (z : Z) : Z :=
  match z with
  | Zpos p => Pos_popcount p
  | _ => 0
  end.

(** ** convert.cc: the CS16H table arctangent *)

(** [lookup_atan_] is a std::array of this many entries. *)
Definition lookup_atan_size : Z := 65536.

(** What a call of [TableAtan] does with the table: it answers pi/2
    without touching it, or reads one entry. *)
Inductive atan_access : Type :=
| Saturated
| TableRead (index : Z).

Definition TableAtan_access (r : Z) : atan_access :=
  if r >? lookup_atan_size then Saturated else TableRead r.

(** C division of ints: the quotient is truncated towards zero. *)
Definition c_div (a b : Z) : Z := Z.quot a b.

(** The ratio [r] of [TableAtan2] and the argument it hands to
    [TableAtan], by quadrant; [None] for [x = 0], where the table is not
    consulted. *)
Definition TableAtan2_arg (y x : Z) : option Z :=
  if x =? 0 then None
  else
    let r := c_div (256 * y) x in
    if x <? 0 then
      if y <? 0 then Some (to_uint32 r) else Some (to_uint32 (- r))
    else
      if y <? 0 then Some (to_uint32 (- r)) else Some (to_uint32 r).

Definition TableAtan2_access (y x : Z) : option atan_access :=
  TableAtan_access <$> TableAtan2_arg y x.

Section CS16HConverter.
(** The table contents come from the host's atan and are left open. *)
Variable lookup_atan_ : list Z.

(** [None] stands for a read outside the array. *)
Definition TableAtan (r : Z) : option Z :=
  match TableAtan_access r with
  | Saturated => Some 16384
  | TableRead i => lookup_atan_ !! Z.to_nat i
  end.

Definition TableAtan2 (y x : Z) : option Z :=
  if x =? 0 then
    if 0 <=? y then Some 16384 else Some 49152
  else
    let r := c_div (256 * y) x in
    if x <? 0 then
      if y <? 0 then
        a ← TableAtan (to_uint32 r); Some (to_uint16 (32768 + a))
      else
        a ← TableAtan (to_uint32 (- r)); Some (to_uint16 (32768 - a))
    else
      if y <? 0 then
        a ← TableAtan (to_uint32 (- r)); Some (to_uint16 (0 - a))
      else
        TableAtan (to_uint32 r).
End CS16HConverter.

(** ** fec.cc *)

(** The three codec control blocks held by [FEC]. *)
Inductive rs_code : Type :=
| rs_downlink_short_
| rs_downlink_long_
| rs_uplink_.

Definition rs_nroots (c : rs_code) : Z :=
  match c with
  | rs_downlink_short_ => fec.DOWNLINK_SHORT_ROOTS
  | rs_downlink_long_ => fec.DOWNLINK_LONG_ROOTS
  | rs_uplink_ => fec.UPLINK_BLOCK_ROOTS
  end.

(** Outcome of one [decode_rs_char] call: the returned count, the data
    buffer as the call leaves it, and the entries it stores at the front
    of the caller's erasure array. *)
Record rs_result : Type := {
  n_corrected : Z;
  data_out : list Z;
  eras_out : list Z
}.

(** A decoder takes the code, the data buffer and the first [no_eras]
    entries of the erasure array. *)
Definition rs_decoder : Type := rs_code -> list Z -> list Z -> rs_result.

(** One decoder invocation, as recorded in the trace. *)
Record rs_call : Type := {
  call_code : rs_code;
  call_data : list Z;
  call_eras : list Z
}.

(** Computations that invoke the decoder, with the list of invocations
    they made. *)
Definition Traced (A : Type) : Type := A * list rs_call.

Definition tret {A} (a : A) : Traced A := (a, []).

Definition tbind {A B} (m : Traced A) (k : A -> Traced B) : Traced B :=
  let '(a, calls1) := m in
  let '(b, calls2) := k a in
  (b, calls1 ++ calls2).

Notation "'let*' x := m 'in' k" := (tbind m (fun x => k))
  (at level 10, x name, m at level 100, k at level 200, only parsing).

(** [std::vector::resize]: truncate, or extend with zero bytes. *)
Definition vec_resize (n : nat) (v : list Z) : list Z :=
  take n v ++ replicate (n - length v) 0.

(** [v[i]] for a byte vector *)
Definition at_index (v : list Z) (i : Z) : Z := default 0 (v !! Z.to_nat i).

(** The result tuple [R{false, {}, 0}]. *)
Definition fec_failed : bool * list Z * Z := (false, [], 0).

(** The long-code loop of [CorrectDownlink]: entry [i] of the erasure
    array receives the biased position and the erased byte is cleared.
    An erasure is an index into [raw]; for one outside the buffer the
    C++ store is undefined and the list update below leaves the buffer
    alone. *)
Fixpoint mark_long_erasures (i : nat) (erasures : list Z)
    (erasures_array corrected : list Z) : list Z * list Z :=
  match erasures with
  | [] => (erasures_array, corrected)
  | e :: rest =>
      mark_long_erasures (S i) rest
        (<[i := e + fec.DOWNLINK_LONG_PAD]> erasures_array)
        (<[Z.to_nat e := 0]> corrected)
  end.

(** The range-for of [CorrectDownlink] that keeps the erasures inside the
    short message; returns the array and [short_erasures]. *)
Fixpoint collect_short_erasures (erasures : list Z) (erasures_array : list Z)
    (short_erasures : Z) : list Z * Z :=
  match erasures with
  | [] => (erasures_array, short_erasures)
  | e :: rest =>
      if e <? DOWNLINK_SHORT_BYTES then
        collect_short_erasures rest
          (if short_erasures <? fec.DOWNLINK_SHORT_ROOTS
           then <[Z.to_nat short_erasures := e + fec.DOWNLINK_SHORT_PAD]> erasures_array
           else erasures_array)
          (short_erasures + 1)
      else collect_short_erasures rest erasures_array short_erasures
  end.

(** The per-block range-for of [CorrectUplink]. *)
Fixpoint collect_block_erasures (block : Z) (erasures : list Z)
    (block_erasures : list Z) (num_erasures : Z) : list Z * Z :=
  match erasures with
  | [] => (block_erasures, num_erasures)
  | index :: rest =>
      if index mod UPLINK_BLOCKS_PER_FRAME =? block then
        collect_block_erasures block rest
          (if num_erasures <? fec.UPLINK_BLOCK_ROOTS
           then <[Z.to_nat num_erasures :=
                    index / UPLINK_BLOCKS_PER_FRAME + fec.UPLINK_BLOCK_PAD]> block_erasures
           else block_erasures)
          (num_erasures + 1)
      else collect_block_erasures block rest block_erasures num_erasures
  end.

(** The deinterleave loop: [blockdata[i] = raw[i * 6 + block]] for [i]
    counting up from [i] for [todo] steps. *)
Fixpoint deinterleave_loop (raw : list Z) (block : Z) (todo : nat) (i : Z)
    (blockdata : list Z) : list Z :=
  match todo with
  | O => blockdata
  | S todo' =>
      deinterleave_loop raw block todo' (i + 1)
        (<[Z.to_nat i := at_index raw (i * UPLINK_BLOCKS_PER_FRAME + block)]> blockdata)
  end.

Section FEC.
Variable decode_rs_char : rs_decoder.

(** [::decode_rs_char(rs, data, eras_pos, no_eras)]: the call is
    recorded; the erasure array keeps whatever the decoder stored at
    its front. *)
Definition call_decoder (code : rs_code) (data eras_array : list Z) (no_eras : Z)
    : Traced (Z * list Z * list Z) :=
  let eras := take (Z.to_nat no_eras) eras_array in
  let r := decode_rs_char code data eras in
  ((n_corrected r, data_out r,
    eras_out r ++ drop (length (eras_out r)) eras_array),
   [{| call_code := code; call_data := data; call_eras := eras |}]).

Definition CorrectDownlink (raw erasures : list Z) : Traced (bool * list Z * Z) :=
  if negb (Z.of_nat (length raw) =? DOWNLINK_LONG_BYTES) then tret fec_failed
  else if Z.of_nat (length erasures) >? fec.DOWNLINK_LONG_ROOTS then tret fec_failed
  else
    let corrected := raw in
    let erasures_array := replicate (Z.to_nat fec.DOWNLINK_LONG_ROOTS) 0 in
    let '(erasures_array, corrected) :=
      mark_long_erasures 0 erasures erasures_array corrected in
    let* r := call_decoder rs_downlink_long_ corrected erasures_array
            (Z.of_nat (length erasures)) in
    let '(n_corrected, corrected, erasures_array) := r in
    if (0 <=? n_corrected) && (n_corrected <=? fec.DOWNLINK_LONG_ROOTS)
       && negb (Z.shiftr (at_index corrected 0) 3 =? 0)
    then tret (true, vec_resize (Z.to_nat DOWNLINK_LONG_DATA_BYTES) corrected, n_corrected)
    else
      let '(erasures_array, short_erasures) :=
        collect_short_erasures erasures erasures_array 0 in
      if short_erasures >? fec.DOWNLINK_SHORT_ROOTS then tret fec_failed
      else
        let* r := call_decoder rs_downlink_short_ corrected erasures_array short_erasures in
        let '(n_corrected, corrected, _) := r in
        if (0 <=? n_corrected) && (n_corrected <=? fec.DOWNLINK_SHORT_ROOTS)
           && (Z.shiftr (at_index corrected 0) 3 =? 0)
        then tret (true, vec_resize (Z.to_nat DOWNLINK_SHORT_DATA_BYTES) corrected, n_corrected)
        else tret fec_failed.

(** The block loop of [CorrectUplink], for the blocks still to do. *)
Fixpoint uplink_blocks (raw erasures : list Z) (todo : nat) (block : Z)
    (total_errors : Z) (corrected blockdata : list Z)
    : Traced (bool * list Z * Z) :=
  match todo with
  | O => tret (true, corrected, total_errors)
  | S todo' =>
      let blockdata :=
        deinterleave_loop raw block (Z.to_nat UPLINK_BLOCK_BYTES) 0 blockdata in
      let block_erasures := replicate (Z.to_nat fec.UPLINK_BLOCK_ROOTS) 0 in
      let '(block_erasures, num_erasures) :=
        collect_block_erasures block erasures block_erasures 0 in
      if num_erasures >? fec.UPLINK_BLOCK_ROOTS then tret fec_failed
      else
        let* r := call_decoder rs_uplink_ blockdata block_erasures num_erasures in
        let '(n_corrected, blockdata, _) := r in
        if (n_corrected <? 0) || (n_corrected >? fec.UPLINK_BLOCK_ROOTS)
        then tret fec_failed
        else
          uplink_blocks raw erasures todo' (block + 1)
            (to_uint32 (total_errors + n_corrected))
            (corrected ++ take (Z.to_nat UPLINK_BLOCK_DATA_BYTES) blockdata)
            blockdata
  end.

Definition CorrectUplink (raw erasures : list Z) : Traced (bool * list Z * Z) :=
  if negb (Z.of_nat (length raw) =? UPLINK_BYTES) then tret fec_failed
  else
    uplink_blocks raw erasures (Z.to_nat UPLINK_BLOCKS_PER_FRAME) 0 0 []
      (vec_resize (Z.to_nat UPLINK_BLOCK_BYTES) []).
End FEC.

(** ** demodulator.cc: bit slicing *)

(** [phase[i]] for a position inside the phase buffer *)
Definition phase_at (phase : list Z) (i : Z) : Z := default 0 (phase !! Z.to_nat i).

(** One of the eight tests of the [DemodBits] body, on the sample pair at
    [p]: set the bit [mask], or flag the byte as erased. *)
Definition slice_bit (phase : list Z) (p mask zero_slice one_slice : Z)
    (st : Z * bool) : Z * bool :=
  let '(b, erasure) := st in
  if PhaseDifference (phase_at phase p) (phase_at phase (p + 1)) >? one_slice
  then (Z.lor b mask, erasure)
  else if PhaseDifference (phase_at phase p) (phase_at phase (p + 1)) >? zero_slice
  then (b, true)
  else (b, erasure).

Definition slice_byte (phase : list Z) (p zero_slice one_slice : Z) : Z * bool :=
  let st := slice_bit phase p 0x80 zero_slice one_slice (0, false) in
  let st := slice_bit phase (p + 2) 0x40 zero_slice one_slice st in
  let st := slice_bit phase (p + 4) 0x20 zero_slice one_slice st in
  let st := slice_bit phase (p + 6) 0x10 zero_slice one_slice st in
  let st := slice_bit phase (p + 8) 0x08 zero_slice one_slice st in
  let st := slice_bit phase (p + 10) 0x04 zero_slice one_slice st in
  let st := slice_bit phase (p + 12) 0x02 zero_slice one_slice st in
  slice_bit phase (p + 14) 0x01 zero_slice one_slice st.

Fixpoint DemodBits_loop (phase : list Z) (todo : nat) (i p zero_slice one_slice : Z)
    (result erasures : list Z) : list Z * list Z :=
  match todo with
  | O => (result, erasures)
  | S todo' =>
      let '(b, erasure) := slice_byte phase p zero_slice one_slice in
      DemodBits_loop phase todo' (i + 1) (p + 16) zero_slice one_slice
        (result ++ [b]) (if erasure then erasures ++ [i] else erasures)
  end.

Definition DemodBits (phase : list Z) (p bytes zero_slice one_slice : Z)
    : list Z * list Z :=
  DemodBits_loop phase (Z.to_nat bytes) 0 p zero_slice one_slice [] [].

(** [Demodulator::Message]; the two iterators are positions in the phase
    buffer. *)
Record Message : Type := {
  payload : list Z;
  corrected_errors : Z;
  message_begin : Z;
  message_end : Z
}.

Definition NumTrailingSamples : Z := to_uint32 ((SYNC_BITS + UPLINK_BITS) * 2).

Definition SYNC_MASK : Z := Z.shiftl 1 SYNC_BITS - 1.

(** The shift-register update [((sync << 1) | (d > 0 ? 1 : 0)) & SYNC_MASK]. *)
Definition push_sync_bit (sync d : Z) : Z :=
  Z.land (Z.lor (to_uint64 (Z.shiftl sync 1)) (if d >? 0 then 1 else 0)) SYNC_MASK.

Section Demodulator.
Variable decode_rs_char : rs_decoder.
Variable phase : list Z.

(** Built without AUTO_CENTER: both slicing thresholds are 0. *)
Definition DemodOneDownlink (start : Z) : option Message :=
  let '(raw, erasures) :=
    DemodBits phase (start + SYNC_BITS * 2) DOWNLINK_LONG_BYTES 0 0 in
  let '(success, corrected, errors) :=
    fst (CorrectDownlink decode_rs_char raw erasures) in
  if negb success then None
  else
    let bits :=
      if Z.of_nat (length corrected) =? DOWNLINK_LONG_DATA_BYTES
      then DOWNLINK_LONG_BITS else DOWNLINK_SHORT_BITS in
    Some {| payload := corrected; corrected_errors := errors;
            message_begin := start;
            message_end := start + (SYNC_BITS + bits) * 2 |}.

Definition DemodOneUplink (start : Z) : option Message :=
  let '(raw, erasures) :=
    DemodBits phase (start + SYNC_BITS * 2) UPLINK_BYTES 0 0 in
  let '(success, corrected, errors) :=
    fst (CorrectUplink decode_rs_char raw erasures) in
  if negb success then None
  else
    Some {| payload := corrected; corrected_errors := errors;
            message_begin := start;
            message_end := start + (SYNC_BITS + UPLINK_BITS) * 2 |}.

Definition DemodBest (start : Z) (downlink : bool) : option Message :=
  let message0 := if downlink then DemodOneDownlink start else DemodOneUplink start in
  let message1 :=
    if downlink then DemodOneDownlink (start + 1) else DemodOneUplink (start + 1) in
  match message0, message1 with
  | None, None => None
  | _, _ =>
      let errors0 := from_option corrected_errors 9999 message0 in
      let errors1 := from_option corrected_errors 9999 message1 in
      if errors0 <=? errors1 then message0 else message1
  end.

(** [if (SyncWordMatch(sync, word)) { ... DemodBest(start, downlink) ... }] *)
Definition try_sync (sync word start : Z) (downlink : bool) : option Message :=
  if SyncWordMatch sync word then DemodBest start downlink else None.

(** The four dispatches of one probe position, in source order; the
    first one that yields a message wins. *)
Definition find_frame (probe sync0 sync1 : Z) : option Message :=
  match try_sync sync0 DOWNLINK_SYNC_WORD (probe - SYNC_BITS * 2 + 2) true with
  | Some message => Some message
  | None =>
  match try_sync sync1 DOWNLINK_SYNC_WORD (probe - SYNC_BITS * 2 + 3) true with
  | Some message => Some message
  | None =>
  match try_sync sync0 UPLINK_SYNC_WORD (probe - SYNC_BITS * 2 + 2) false with
  | Some message => Some message
  | None => try_sync sync1 UPLINK_SYNC_WORD (probe - SYNC_BITS * 2 + 3) false
  end end end.

(** The probe loop.  [fuel] bounds the number of iterations; [None]
    means the bound was reached before [probe] passed [limit]. *)
Fixpoint Demodulate_loop (fuel : nat) (probe limit sync_bits sync0 sync1 : Z)
    (messages : list Message) : option (list Message) :=
  match fuel with
  | O => None
  | S fuel' =>
      if negb (probe <? limit) then Some messages
      else
        let d0 := PhaseDifference (phase_at phase probe) (phase_at phase (probe + 1)) in
        let d1 := PhaseDifference (phase_at phase (probe + 1)) (phase_at phase (probe + 2)) in
        let sync0 := push_sync_bit sync0 d0 in
        let sync1 := push_sync_bit sync1 d1 in
        let sync_bits := to_uint32 (sync_bits + 1) in
        if sync_bits <? SYNC_BITS
        then Demodulate_loop fuel' (probe + 2) limit sync_bits sync0 sync1 messages
        else
          match find_frame probe sync0 sync1 with
          | Some message =>
              let probe := message_end message - 2 in
              Demodulate_loop fuel' (probe + 2) limit 0 sync0 sync1
                (messages ++ [message])
          | None =>
              Demodulate_loop fuel' (probe + 2) limit sync_bits sync0 sync1 messages
          end
  end.

Definition Demodulate (begin end_ : Z) : option (list Message) :=
  let trailing_samples := (SYNC_BITS + UPLINK_BITS) * 2 in
  if end_ - begin <? trailing_samples then Some []
  else
    let limit := end_ - trailing_samples in
    Demodulate_loop (S (Z.to_nat (limit - begin))) begin limit 0 0 0 [].
End Demodulator.

(** ** uat_message.h: RawMessage *)

Inductive MessageType : Type :=
| DOWNLINK_SHORT
| DOWNLINK_LONG
| UPLINK
| INVALID
| METADATA.

(** [F] is the type of the float field. *)
Record RawMessage (F : Type) : Type := {
  type_ : MessageType;
  payload_ : list Z;
  received_at_ : Z;
  errors_ : Z;
  rssi_ : F;
  raw_timestamp_ : Z;
  metadata_ : gmap (list ascii) (list ascii)
}.
Arguments type_ {F} _.
Arguments payload_ {F} _.
Arguments received_at_ {F} _.
Arguments errors_ {F} _.
Arguments rssi_ {F} _.
Arguments raw_timestamp_ {F} _.
Arguments metadata_ {F} _.

(** The switch on [payload_.size()] of the payload constructors. *)
Definition type_of_size (size : Z) : MessageType :=
  if size =? DOWNLINK_SHORT_DATA_BYTES then DOWNLINK_SHORT
  else if size =? DOWNLINK_LONG_DATA_BYTES then DOWNLINK_LONG
  else if size =? UPLINK_DATA_BYTES then UPLINK
  else INVALID.

Definition RawMessage_payload {F} (payload : list Z) (received_at errors : Z)
    (rssi : F) (raw_timestamp : Z) : RawMessage F :=
  {| type_ := type_of_size (Z.of_nat (length payload));
     payload_ := payload; received_at_ := received_at; errors_ := errors;
     rssi_ := rssi; raw_timestamp_ := raw_timestamp; metadata_ := ∅ |}.

(** ** demodulator.cc: SingleThreadReceiver *)

(** [std::copy] of [src] into [dst] from position [pos] on.  Bytes that
    would land past the end of [dst], where the C++ copy runs off the
    vector, are left out. *)
Definition copy_into (dst : list Z) (pos : nat) (src : list Z) : list Z :=
  take pos dst ++ take (length dst - pos) src ++ drop (pos + length src) dst.

Record Receiver : Type := {
  samples_ : list Z;
  saved_samples_ : Z;
  phase_ : list Z
}.

Section SingleThreadReceiver.
Variable decode_rs_char : rs_decoder.
(** The converter: its sample width and its two conversions; [double]
    is the host's floating-point type. *)
Variable double : Type.
Variable BytesPerSample : Z.
Variable ConvertPhase : list Z -> list Z.
Variable ConvertMagSq : list Z -> list double.
(** The accumulation and logarithm that turn a frame's power samples
    into its RSSI. *)
Variable rssi_of_magsq : list double -> double.

(** The timestamp given to a message that begins at phase position
    [message_begin]. *)
Definition message_timestamp (timestamp previous_samples message_begin : Z) : Z :=
  to_uint64
    (to_uint64 (timestamp - to_uint64 (1000 * previous_samples) / 2083333)
     + to_uint64 (c_div (1000 * message_begin) 2083333)).

Definition dispatch_message (samples : list Z) (timestamp previous_samples : Z)
    (message : Message) : RawMessage double :=
  let begin_sample := Z.to_nat (message_begin message * BytesPerSample) in
  let end_sample := Z.to_nat (message_end message * BytesPerSample) in
  let magsq := ConvertMagSq (drop begin_sample (take end_sample samples)) in
  let rssi := rssi_of_magsq magsq in
  RawMessage_payload (payload message)
    (message_timestamp timestamp previous_samples (message_begin message))
    (corrected_errors message) rssi 0.

(** [total_samples]: the samples of this call after the saved ones. *)
Definition total_samples (rx : Receiver) (buffer : list Z) : Z :=
  let buffer_bytes := Z.of_nat (length buffer) in
  let buffer_samples := buffer_bytes / BytesPerSample in
  let previous_samples := saved_samples_ rx in
  buffer_samples + previous_samples.

(** [samples_] once the new bytes are copied in behind the saved tail. *)
Definition staged_samples (rx : Receiver) (buffer : list Z) : list Z :=
  let previous_samples := saved_samples_ rx in
  let previous_bytes := previous_samples * BytesPerSample in
  let total_bytes := total_samples rx buffer * BytesPerSample in
  let samples :=
    if Z.of_nat (length (samples_ rx)) <? total_bytes
    then vec_resize (Z.to_nat total_bytes) (samples_ rx) else samples_ rx in
  copy_into samples (Z.to_nat previous_bytes) buffer.

(** [phase_] once the whole sample range is converted. *)
Definition staged_phase (rx : Receiver) (buffer : list Z) : list Z :=
  let total_bytes := total_samples rx buffer * BytesPerSample in
  let phase :=
    if Z.of_nat (length (phase_ rx)) <? total_samples rx buffer
    then vec_resize (Z.to_nat (total_samples rx buffer)) (phase_ rx) else phase_ rx in
  copy_into phase 0 (ConvertPhase (take (Z.to_nat total_bytes) (staged_samples rx buffer))).

(** The frames found by this call. *)
Definition demodulated (rx : Receiver) (buffer : list Z) : option (list Message) :=
  Demodulate decode_rs_char (staged_phase rx buffer) 0 (total_samples rx buffer).

(** One call of [HandleSamples]: the receiver afterwards and the
    messages handed to [DispatchMessages]. *)
Definition HandleSamples (rx : Receiver) (timestamp : Z) (buffer : list Z)
    : option (Receiver * list (RawMessage double)) :=
  let previous_samples := saved_samples_ rx in
  let total_samples := total_samples rx buffer in
  let samples := staged_samples rx buffer in
  let phase := staged_phase rx buffer in
  match demodulated rx buffer with
  | None => None
  | Some messages =>
      let dispatch := map (dispatch_message samples timestamp previous_samples) messages in
      let tail_size := NumTrailingSamples in
      if total_samples >? tail_size then
        let tail_bytes := Z.to_nat (tail_size * BytesPerSample) in
        Some ({| samples_ := copy_into samples 0 (drop (length samples - tail_bytes) samples);
                 saved_samples_ := tail_size;
                 phase_ := phase |}, dispatch)
      else
        Some ({| samples_ := samples; saved_samples_ := total_samples;
                 phase_ := phase |}, dispatch)
  end.

(** The timestamp rule as the spec writes it, over the integers with
    truncating division. *)
Definition frame_time (chunk_timestamp saved_samples frame_sample_start : Z) : Z :=
  chunk_timestamp - Z.quot (1000 * saved_samples) 2083333
  + Z.quot (1000 * frame_sample_start) 2083333.
End SingleThreadReceiver.

(** What [HandleSamples] relies on between calls: the saved samples
    number between 0 and the trailing reserve and lie inside
    [samples_]. *)
Definition receiver_ok (BytesPerSample : Z) (rx : Receiver) : Prop :=
  0 <= saved_samples_ rx <= NumTrailingSamples /\
  saved_samples_ rx * BytesPerSample <= Z.of_nat (length (samples_ rx)).

(** The bytes a call has to work on: the saved samples, then the new
    chunk. *)
Definition call_input (BytesPerSample : Z) (rx : Receiver) (buffer : list Z) : list Z :=
  take (Z.to_nat (saved_samples_ rx * BytesPerSample)) (samples_ rx) ++ buffer.

(** The bytes a receiver holds for its next call. *)
Definition saved_data (BytesPerSample : Z) (rx : Receiver) : list Z :=
  take (Z.to_nat (saved_samples_ rx * BytesPerSample)) (samples_ rx).

(** The last [n] entries of a list, all of it when it has no more. *)
Definition last_n {A} (n : nat) (l : list A) : list A := drop (length l - n) l.

Section SampleSource.
Variable decode_rs_char : rs_decoder.
Variable double : Type.
Variable BytesPerSample : Z.
Variable ConvertPhase : list Z -> list Z.
Variable ConvertMagSq : list Z -> list double.
Variable rssi_of_magsq : list double -> double.

(** A sample source driving the receiver: one [HandleSamples] call per
    (timestamp, chunk), the dispatched messages in order. *)
Fixpoint HandleChunks (rx : Receiver) (chunks : list (Z * list Z))
    : option (Receiver * list (RawMessage double)) :=
  match chunks with
  | [] => Some (rx, [])
  | (timestamp, buffer) :: rest =>
      match HandleSamples decode_rs_char double BytesPerSample ConvertPhase ConvertMagSq
              rssi_of_magsq rx timestamp buffer with
      | None => None
      | Some (rx', out) =>
          match HandleChunks rx' rest with
          | None => None
          | Some (rx'', out') => Some (rx'', out ++ out')
          end
      end
  end.
End SampleSource.

(** ** socket_input.cc: the raw line parser *)

(** A [std::string] is its list of characters; [chars] reads a literal. *)
Definition chars (s : string) : list ascii := list_ascii_of_string s.

(** [line[i]]; the character past the end is the terminating zero. *)
Definition char_at (line : list ascii) (i : nat) : ascii := default zero (line !! i).

(** Offset of the first [c] in [rest], if any. *)
Fixpoint offset_of (c : ascii) (rest : list ascii) : option nat :=
  match rest with
  | [] => None
  | x :: rest' => if Ascii.eqb x c then Some 0%nat else S <$> offset_of c rest'
  end.

(** [line.find(c, pos)]; [None] is [npos]. *)
Definition find (line : list ascii) (c : ascii) (pos : nat) : option nat :=
  Nat.add pos <$> offset_of c (drop pos line).

(** [line.substr(pos, n)] for [pos] inside the string *)
Definition substr (line : list ascii) (pos n : nat) : list ascii :=
  take n (drop pos line).

Definition hexvalue (c : ascii) : Z :=
  match c with
  | "0" => 0 | "1" => 1 | "2" => 2 | "3" => 3 | "4" => 4
  | "5" => 5 | "6" => 6 | "7" => 7 | "8" => 8 | "9" => 9
  | "a" | "A" => 10
  | "b" | "B" => 11
  | "c" | "C" => 12
  | "d" | "D" => 13
  | "e" | "E" => 14
  | "f" | "F" => 15
  | _ => -1
  end%char.

(** value kept by a conversion to std::uint8_t *)
Definition to_uint8 (v : Z) : Z := v mod 256.

(** The hex loop [for (i = 1; i < eod; i += 2)]: [None] on a bad digit.
    [fuel] bounds the iterations; [eod] of them are enough. *)
Fixpoint parse_hex (fuel : nat) (line : list ascii) (eod i : nat) (payload : list Z)
    : option (list Z) :=
  match fuel with
  | O => Some payload
  | S fuel' =>
      if (i <? eod)%nat then
        let h1 := hexvalue (char_at line i) in
        let h2 := hexvalue (char_at line (i + 1)) in
        if (h1 <? 0) || (h2 <? 0) then None
        else parse_hex fuel' line eod (i + 2)
               (payload ++ [to_uint8 (Z.lor (Z.shiftl h1 4) h2)])
      else Some payload
  end.

(** The metadata loop of [ParseMetadataLine], [metadata[key] = value]
    for each pair. *)
Fixpoint parse_metadata (fuel : nat) (line : list ascii) (i : nat)
    (metadata : gmap (list ascii) (list ascii)) : gmap (list ascii) (list ascii) :=
  match fuel with
  | O => metadata
  | S fuel' =>
      if (i <? length line)%nat then
        match find line "=" i, find line ";" i with
        | Some equals, Some semicolon =>
            if (semicolon <? equals)%nat then metadata
            else
              let key := substr line i (equals - i) in
              let value := substr line (equals + 1) (semicolon - equals - 1) in
              parse_metadata fuel' line (semicolon + 1) (<[key := value]> metadata)
        | _, _ => metadata
        end
      else metadata
  end.

Section RawInput.
(** The host's float type and the standard conversions the parser calls;
    [None] stands for a thrown exception. *)
Variable F : Type.
Variable float_zero : F.
Variable stoi : list ascii -> option Z.
Variable stod : list ascii -> option F.
Variable stoll : list ascii -> option Z.
(** [(std::uint64_t)(d * 1000)] *)
Variable millis_of : F -> Z.

(** The four locals filled by the key-value loop. *)
Record Fields : Type := {
  rs : Z;
  rssi : F;
  t : Z;
  rt : Z
}.

(** The if-chain on [key]; a key that is none of the four changes
    nothing. *)
Definition update_field (key value : list ascii) (fields : Fields) : Fields :=
  if decide (key = chars "rs") then
    {| rs := to_uint32 (default 0 (stoi value)); rssi := rssi fields;
       t := t fields; rt := rt fields |}
  else if decide (key = chars "rssi") then
    {| rs := rs fields; rssi := default float_zero (stod value);
       t := t fields; rt := rt fields |}
  else if decide (key = chars "t") then
    {| rs := rs fields; rssi := rssi fields;
       t := default 0 (to_uint64 <$> (millis_of <$> stod value)); rt := rt fields |}
  else if decide (key = chars "rt") then
    {| rs := rs fields; rssi := rssi fields;
       t := t fields; rt := to_uint64 (default 0 (stoll value)) |}
  else fields.

(** The key-value loop [for (i = eod + 1; i < line.size();)].  [fuel]
    bounds the iterations; [i] grows with each, so [length line - i] of
    them are enough. *)
Fixpoint parse_fields (fuel : nat) (line : list ascii) (i : nat) (fields : Fields)
    : Fields :=
  match fuel with
  | O => fields
  | S fuel' =>
      if (i <? length line)%nat then
        match find line "=" i, find line ";" i with
        | Some equals, Some semicolon =>
            if (semicolon <? equals)%nat then fields
            else
              let key := substr line i (equals - i) in
              let value := substr line (equals + 1) (semicolon - equals - 1) in
              parse_fields fuel' line (semicolon + 1) (update_field key value fields)
        | _, _ => fields
        end
      else fields
  end.

Definition ParseMetadataLine (line : list ascii) : option (RawMessage F) :=
  Some {| type_ := METADATA; payload_ := []; received_at_ := 0; errors_ := 0;
          rssi_ := float_zero; raw_timestamp_ := 0;
          metadata_ := parse_metadata (length line) line 1 ∅ |}.

Definition no_fields : Fields := {| rs := 0; rssi := float_zero; t := 0; rt := 0 |}.

(** [None] is [boost::none]. *)
Definition ParseLine (line : list ascii) : option (RawMessage F) :=
  if (length line <? 2)%nat then None
  else if Ascii.eqb (char_at line 0) "!" then ParseMetadataLine line
  else if negb (Ascii.eqb (char_at line 0) "-") && negb (Ascii.eqb (char_at line 0) "+")
  then None
  else
    match find line ";" 1 with
    | None => None
    | Some eod =>
        let hexlength := (eod - 1)%nat in
        if negb (hexlength mod 2 =? 0)%nat then None
        else
          match parse_hex eod line eod 1 [] with
          | None => None
          | Some payload =>
              let fields := parse_fields (length line) line (eod + 1) no_fields in
              Some (RawMessage_payload payload
                      (t fields) (rs fields) (rssi fields) (rt fields))
          end
    end.
(** The message built from a payload and the fields behind it. *)
Definition payload_message (line : list ascii) (eod : nat) (payload : list Z)
    : RawMessage F :=
  let fields := parse_fields (length line) line (eod + 1) no_fields in
  RawMessage_payload payload (t fields) (rs fields) (rssi fields) (rt fields).
End RawInput.

(** The payload of a line in list form: its hex digits read two by two,
    [None] when a pair is incomplete or a digit is bad. *)
Fixpoint hex_bytes (digits : list ascii) : option (list Z) :=
  match digits with
  | [] => Some []
  | c1 :: c2 :: rest =>
      if (hexvalue c1 <? 0) || (hexvalue c2 <? 0) then None
      else cons (to_uint8 (Z.lor (Z.shiftl (hexvalue c1) 4) (hexvalue c2))) <$> hex_bytes rest
  | [_] => None
  end.

(** The keys the parser knows. *)
Definition known_key (key : list ascii) : Prop :=
  key = chars "rs" \/ key = chars "rssi" \/ key = chars "t" \/ key = chars "rt".

(** Conversions for evaluating the parser: [stoi] and [stoll] read a
    plain run of decimal digits, [stod] always throws. *)
Fixpoint decimal_value (acc : Z) (digits : list ascii) : option Z :=
  match digits with
  | [] => Some acc
  | c :: rest =>
      let d := hexvalue c in
      if (0 <=? d) && (d <=? 9) then decimal_value (10 * acc + d) rest else None
  end.

Definition plain_decimal (value : list ascii) : option Z :=
  match value with
  | [] => None
  | _ => decimal_value 0 value
  end.

Abbreviation ParseLine_plain :=
  (ParseLine unit tt plain_decimal (fun _ => None) plain_decimal (fun _ => 0)).

(** ** A codeword checker and a sample format for evaluation *)

(** Multiplication by the primitive element of GF(256) modulo the
    generator polynomial 0x187. *)
Definition gf_mul_alpha (x : Z) : Z :=
  let y := 2 * x in
  if 256 <=? y then Z.lxor y fec.DOWNLINK_LONG_POLY else y.

(** [x * alpha^k] *)
Definition gf_mul_alpha_pow (k : nat) (x : Z) : Z := Nat.iter k gf_mul_alpha x.

(** Syndrome [i] of a received block: the block evaluated, by Horner's
    rule, at [alpha^(fcr + i)] for fcr = 120 and prim = 1. *)
Definition syndrome (data : list Z) (i : nat) : Z :=
  fold_left (fun s d => Z.lxor d (gf_mul_alpha_pow (120 + i) s)) data 0.

(** The pad each control block is set up with in [FEC::FEC]. *)
Definition rs_pad (c : rs_code) : Z :=
  match c with
  | rs_downlink_short_ => fec.DOWNLINK_SHORT_PAD
  | rs_downlink_long_ => fec.DOWNLINK_LONG_PAD
  | rs_uplink_ => fec.UPLINK_BLOCK_PAD
  end.

(** The block a code works on is the first [255 - pad] bytes of the
    buffer it is handed: 30, 48 or 92 of them. *)
Definition rs_block (code : rs_code) (data : list Z) : list Z :=
  take (Z.to_nat (255 - rs_pad code)) data.

Definition is_codeword (code : rs_code) (data : list Z) : bool :=
  forallb (fun i => syndrome (rs_block code data) i =? 0)
    (seq 0 (Z.to_nat (rs_nroots code))).

(** Modelled from the spec: [decode_rs_char] belongs to the fec library,
    which is not among the sources.  The spec has the decoder compute the
    syndromes of its block first, return 0 corrections with the buffer
    untouched for a codeword, and return a negative count with the
    buffer untouched when it gives up.  This instance does the first two
    steps and gives up on every block that is not a codeword; it agrees
    with the library on codewords and serves to run the receiver on
    clean frames. *)
Definition check_only_decoder : rs_decoder :=
  fun code data eras =>
    if is_codeword code data
    then {| n_corrected := 0; data_out := data; eras_out := [] |}
    else {| n_corrected := -1; data_out := data; eras_out := [] |}.

(** A two-byte sample format for running the receiver: each sample
    carries its 16-bit phase, low byte first. *)
Fixpoint phase_of_le16 (bytes : list Z) : list Z :=
  match bytes with
  | lo :: hi :: rest => (lo + 256 * hi) :: phase_of_le16 rest
  | _ => []
  end.

(** Phase samples that spell the bits [bits] at two samples per bit: a
    rising pair for 1, a flat pair for 0. *)
Definition phase_of_bits (bits : list bool) : list Z :=
  flat_map (fun b : bool => if b then [0; 1] else [0; 0]) bits.

Definition le16_of_phase (phase : list Z) : list Z :=
  flat_map (fun v => [v mod 256; v / 256]) phase.

(** The bits of a 36-bit sync word, first transmitted bit first. *)
Definition sync_word_bits (word : Z) : list bool :=
  map (fun i => Z.testbit word (35 - Z.of_nat i)) (seq 0 36).

(** A phase buffer holding one basic downlink frame of all-zero bytes at
    position 0, followed by enough samples for the frame to be searched. *)
Definition clean_frame_phase : list Z :=
  phase_of_bits (sync_word_bits DOWNLINK_SYNC_WORD ++ replicate 4500 false).

(** The same frame as a chunk of two-byte samples. *)
Definition clean_frame_chunk : list Z := le16_of_phase clean_frame_phase.

(** A receiver that has seen no samples yet. *)
Definition fresh_receiver : Receiver :=
  {| samples_ := []; saved_samples_ := 0; phase_ := [] |}.

(** The receiver on two-byte phase samples, its float type cut down to a
    single value. *)
Abbreviation HandleSamples_le16 :=
  (HandleSamples check_only_decoder unit 2 phase_of_le16 (fun _ => []) (fun _ => tt)).

Abbreviation HandleChunks_le16 :=
  (HandleChunks check_only_decoder unit 2 phase_of_le16 (fun _ => []) (fun _ => tt)).

(** [count] consecutive values, from [first] on. *)
Fixpoint count_up (count : nat) (first : Z) : list Z :=
  match count with
  | O => []
  | S count' => first :: count_up count' (first + 1)
  end.

(** The samples [first], [first + 1], ... of a stream in which sample
    [k] carries the phase value [k], [count] of them. *)
Definition samples_from (first count : Z) : list Z := count_up (Z.to_nat count) first.

(** The same samples as a chunk of two-byte samples. *)
Definition ramp_chunk (first count : Z) : list Z := le16_of_phase (samples_from first count).

(** The samples a receiver on two-byte samples holds for its next
    call, as phases. *)
Definition kept_samples (rx : Receiver) : list Z := phase_of_le16 (saved_data 2 rx).

(** ** The FEC rules in list form *)

(** These state, with maps and filters over the whole erasure list, what
    the loops of fec.cc are compared with. *)

(** [raw] with every erased byte cleared *)
Definition clear_erased (erasures raw : list Z) : list Z :=
  imap (fun j b => if bool_decide (Z.of_nat j ∈ erasures) then 0 else b) raw.

(** erasure positions inside the 255-symbol long codeword *)
Definition long_erasures (erasures : list Z) : list Z :=
  map (fun e => e + fec.DOWNLINK_LONG_PAD) erasures.

(** erasures inside the short message, inside the short codeword *)
Definition short_erasures (erasures : list Z) : list Z :=
  map (fun e => e + fec.DOWNLINK_SHORT_PAD)
    (filter (fun e => e < DOWNLINK_SHORT_BYTES) erasures).

(** [payload[0] >> 3], the payload type code of the header *)
Definition header_type (payload : list Z) : Z := Z.shiftr (at_index payload 0) 3.

(** [block_b[i] = raw[i * 6 + b]] *)
Definition deinterleave (raw : list Z) (b : Z) : list Z :=
  map (fun i => at_index raw (i * UPLINK_BLOCKS_PER_FRAME + b)) (seqZ 0 UPLINK_BLOCK_BYTES).

(** erasures of block [b], inside the uplink codeword *)
Definition uplink_block_erasures (erasures : list Z) (b : Z) : list Z :=
  map (fun index => index / UPLINK_BLOCKS_PER_FRAME + fec.UPLINK_BLOCK_PAD)
    (filter (fun index => index mod UPLINK_BLOCKS_PER_FRAME = b) erasures).

Section FECRules.
Variable decode_rs_char : rs_decoder.

(** The long attempt: the long code on the cleared buffer. *)
Definition long_attempt (raw erasures : list Z) : rs_result :=
  decode_rs_char rs_downlink_long_ (clear_erased erasures raw) (long_erasures erasures).

(** The short attempt works on the buffer as the long attempt left it. *)
Definition short_attempt (raw erasures : list Z) : rs_result :=
  decode_rs_char rs_downlink_short_ (data_out (long_attempt raw erasures))
    (short_erasures erasures).

(** The long attempt is accepted when it succeeds and the header does
    not say "basic" (type code 0). *)
Definition long_accepted (raw erasures : list Z) : bool :=
  let long := long_attempt raw erasures in
  (0 <=? n_corrected long) && negb (header_type (data_out long) =? 0).

(** The short attempt is accepted when its erasures fit the short code,
    it succeeds and the header says "basic". *)
Definition short_accepted (raw erasures : list Z) : bool :=
  let short := short_attempt raw erasures in
  (Z.of_nat (length (short_erasures erasures)) <=? fec.DOWNLINK_SHORT_ROOTS)
  && (0 <=? n_corrected short) && (header_type (data_out short) =? 0).

(** The two-try policy for a downlink frame. *)
Definition downlink_policy (raw erasures : list Z) : bool * list Z * Z :=
  if long_accepted raw erasures then
    let long := long_attempt raw erasures in
    (true, take (Z.to_nat DOWNLINK_LONG_DATA_BYTES) (data_out long), n_corrected long)
  else if short_accepted raw erasures then
    let short := short_attempt raw erasures in
    (true, take (Z.to_nat DOWNLINK_SHORT_DATA_BYTES) (data_out short), n_corrected short)
  else fec_failed.

Definition long_call (raw erasures : list Z) : rs_call :=
  {| call_code := rs_downlink_long_; call_data := clear_erased erasures raw;
     call_eras := long_erasures erasures |}.

Definition short_call (raw erasures : list Z) : rs_call :=
  {| call_code := rs_downlink_short_;
     call_data := data_out (long_attempt raw erasures);
     call_eras := short_erasures erasures |}.

(** Block [b] of an uplink frame, decoded on its own. *)
Definition uplink_block (raw erasures : list Z) (b : Z) : rs_result :=
  decode_rs_char rs_uplink_ (deinterleave raw b) (uplink_block_erasures erasures b).

(** A block is recovered when its erasures fit the code and the
    decoder reports a count. *)
Definition uplink_block_ok (raw erasures : list Z) (b : Z) : Prop :=
  Z.of_nat (length (uplink_block_erasures erasures b)) <= fec.UPLINK_BLOCK_ROOTS /\
  0 <= n_corrected (uplink_block raw erasures b).

Definition uplink_call (raw erasures : list Z) (b : Z) : rs_call :=
  {| call_code := rs_uplink_; call_data := deinterleave raw b;
     call_eras := uplink_block_erasures erasures b |}.
(** The data half of block [b] after decoding, and its count. *)
Definition block_half (raw erasures : list Z) (b : Z) : list Z :=
  take (Z.to_nat UPLINK_BLOCK_DATA_BYTES) (data_out (uplink_block raw erasures b)).

Definition block_count (raw erasures : list Z) (b : Z) : Z :=
  n_corrected (uplink_block raw erasures b).

(** What holds on entry to block [block] of the loop of
    [CorrectUplink], with [todo] blocks left. *)
Definition uplink_loop_state (todo : nat) (block total_errors : Z) (blockdata : list Z) : Prop :=
  0 <= block /\ block + Z.of_nat todo = UPLINK_BLOCKS_PER_FRAME /\
  0 <= total_errors <= fec.UPLINK_BLOCK_ROOTS * block /\
  length blockdata = Z.to_nat UPLINK_BLOCK_BYTES.
End FECRules.

(** Sum of a list of counts *)
Definition sum_list (l : list Z) : Z := foldr Z.add 0 l.

(** ** Frame geometry *)

(** Raw bits, sync word excluded, of the frame that carries a payload of
    [size] bytes. *)
Definition frame_bits (size : Z) : option Z :=
  if size =? DOWNLINK_SHORT_DATA_BYTES then Some DOWNLINK_SHORT_BITS
  else if size =? DOWNLINK_LONG_DATA_BYTES then Some DOWNLINK_LONG_BITS
  else if size =? UPLINK_DATA_BYTES then Some UPLINK_BITS
  else None.

(** The sample range of a message is as long as its payload size says. *)
Definition well_framed (m : Message) : Prop :=
  exists bits, frame_bits (Z.of_nat (length (payload m))) = Some bits /\
               message_end m - message_begin m = (SYNC_BITS + bits) * 2.

(** The message lies inside the span [begin, end_) handed to
    [Demodulate]. *)
Definition within_span (begin end_ : Z) (m : Message) : Prop :=
  begin <= message_begin m /\ message_end m <= end_.

(** ** libs/fec/rs-common.h *)

Module rs_common.
(** [struct rs], the codec control block; the three tables are lists. *)
Record rs : Type := {
  mm : Z;
  nn : Z;
  alpha_to : list Z;
  index_of : list Z;
  genpoly : list Z;
  nroots : Z;
  fcr : Z;
  prim : Z;
  iprim : Z;
  pad : Z
}.

(** The loop of [modnn].  [fuel] bounds the iterations; [None] means
    the bound was reached. *)
Fixpoint modnn_loop (fuel : nat) (rs : rs) (x : Z) : option Z :=
  match fuel with
  | O => None
  | S fuel' =>
      if x >=? nn rs then
        let x := x - nn rs in
        let x := Z.shiftr x (mm rs) + Z.land x (nn rs) in
        modnn_loop fuel' rs x
      else Some x
  end.

(** Each iteration lowers a non-negative [x] by at least [nn], so [x]
    iterations and the final test are enough. *)
Definition modnn (rs : rs) (x : Z) : option Z := modnn_loop (S (Z.to_nat x)) rs x.
End rs_common.

(** The control block of an 8-bit code, as [init_rs_char] sets up its
    two sizes; the tables play no part in [modnn]. *)
Definition rs_char_sizes : rs_common.rs :=
  {| rs_common.mm := 8; rs_common.nn := 255;
     rs_common.alpha_to := []; rs_common.index_of := []; rs_common.genpoly := [];
     rs_common.nroots := 0; rs_common.fcr := 0; rs_common.prim := 1;
     rs_common.iprim := 1; rs_common.pad := 0 |}.

(** ** The bit slicer in list form *)

(** The phase step that carries bit [k] (0 is the first bit sent) of
    byte [i] of a run of bytes sliced from position [p]. *)
Definition bit_step (phase : list Z) (p i k : Z) : Z :=
  PhaseDifference (phase_at phase (p + 16 * i + 2 * k))
                  (phase_at phase (p + 16 * i + 2 * k + 1)).

(** Byte [i] of the run is flagged when one of its eight steps lies
    above [zero_slice] without exceeding [one_slice]. *)
Definition undecided (phase : list Z) (p zero_slice one_slice i : Z) : Prop :=
  exists k, 0 <= k < 8 /\
    bit_step phase p i k <= one_slice /\ zero_slice < bit_step phase p i k.

(** ** The frame list of Demodulate *)

(** Frames in buffer order that do not overlap: each one ends before
    any later one begins. *)
Definition frames_ordered (messages : list Message) : Prop :=
  StronglySorted (fun a b => message_end a <= message_begin b) messages.

(** The candidate [DemodBest] looks at for position [start]. *)
Definition DemodOne (decode_rs_char : rs_decoder) (phase : list Z) (downlink : bool)
    (start : Z) : option Message :=
  if downlink then DemodOneDownlink decode_rs_char phase start
  else DemodOneUplink decode_rs_char phase start.

(** ** uat_message.h: what a message says of itself *)



(** * Theorems *)

(** ** Phase differences *)

Lemma to_int16_id v : is_int16 v -> to_int16 v = v.
Proof.
  unfold is_int16, to_int16. intros Hv.
  replace ((v + 32768) mod 65536) with (v + 32768); [lia|].
  symmetry. apply Z.mod_small. lia.
Qed.

(** C7: for unsigned 16-bit phases [a] and [b], [PhaseDifference a b] lies
    in [-32768, 32767] and equals [((b - a + 32768) mod 65536) - 32768]. *)
Theorem PhaseDifference_range_and_value (a b : Z) :
  is_uint16 a -> is_uint16 b ->
  -32768 <= PhaseDifference a b <= 32767 /\
  PhaseDifference a b = ((b - a + 32768) mod 65536) - 32768.
Proof.
  unfold is_uint16, PhaseDifference. intros Ha Hb. cbv zeta.
  destruct (Z.leb_spec 32768 (b - a)) as [Hhi|Hhi].
  - rewrite to_int16_id by (unfold is_int16; lia).
    replace (b - a + 32768) with ((b - a - 32768) + 1 * 65536) by lia.
    rewrite Z.mod_add by lia. rewrite Z.mod_small by lia. lia.
  - destruct (Z.ltb_spec (b - a) (-32768)) as [Hlo|Hlo].
    + rewrite to_int16_id by (unfold is_int16; lia).
      replace (b - a + 32768) with ((b - a + 32768 + 65536) + (-1) * 65536) by lia.
      rewrite Z.mod_add by lia. rewrite Z.mod_small by lia. lia.
    + rewrite to_int16_id by (unfold is_int16; lia).
      rewrite Z.mod_small by lia. lia.
Qed.

Lemma PhaseDifference_range_and_value_witness :
  -32768 <= PhaseDifference 65535 0 <= 32767 /\
  PhaseDifference 65535 0 = ((0 - 65535 + 32768) mod 65536) - 32768.
Proof.
  apply (PhaseDifference_range_and_value 65535 0); unfold is_uint16; lia.
Defined.

(** ** Sync word matching *)

Lemma land_even_odd a b : Z.land (2 * a) (2 * b + 1) = 2 * Z.land a b.
Proof.
  apply Z.bits_inj'. intros n Hn.
  destruct (Z.eq_dec n 0) as [->|Hne].
  - now rewrite Z.land_spec, !Z.testbit_even_0.
  - replace n with (Z.succ (n - 1)) by lia.
    rewrite Z.land_spec, !Z.testbit_even_succ, Z.testbit_odd_succ, Z.land_spec by lia.
    reflexivity.
Qed.

Lemma land_odd_even a b : Z.land (2 * a + 1) (2 * b) = 2 * Z.land a b.
Proof. now rewrite Z.land_comm, land_even_odd, Z.land_comm. Qed.

Lemma popcount_double x : popcount (2 * x) = popcount x.
Proof. now destruct x. Qed.

Lemma Pos_popcount_pos p : 1 <= Pos_popcount p.
Proof. induction p; simpl; lia. Qed.

Lemma popcount_nonneg z : 0 <= popcount z.
Proof. destruct z; simpl; try lia. pose proof (Pos_popcount_pos p). lia. Qed.

Lemma popcount_zero_iff z : 0 <= z -> (popcount z = 0 <-> z = 0).
Proof.
  destruct z as [|p|p]; simpl; intros Hz; try lia.
  pose proof (Pos_popcount_pos p). split; [lia|discriminate].
Qed.

(** Clearing the lowest set bit removes exactly one bit and does not grow
    the value. *)
Lemma land_pred_pos p :
  popcount (Z.land (Z.pos p) (Z.pos p - 1)) = Pos_popcount p - 1 /\
  0 <= Z.land (Z.pos p) (Z.pos p - 1) < Z.pos p.
Proof.
  induction p as [q IH|q IH|].
  - replace (Z.pos q~1) with (2 * Z.pos q + 1) by lia.
    replace (2 * Z.pos q + 1 - 1) with (2 * Z.pos q) by lia.
    rewrite land_odd_even, Z.land_diag, popcount_double.
    change (Pos_popcount q~1) with (1 + Pos_popcount q).
    change (popcount (Z.pos q)) with (Pos_popcount q). lia.
  - replace (Z.pos q~0) with (2 * Z.pos q) by lia.
    replace (2 * Z.pos q - 1) with (2 * (Z.pos q - 1) + 1) by lia.
    rewrite land_even_odd, popcount_double.
    destruct IH as [IH1 IH2].
    change (Pos_popcount q~0) with (Pos_popcount q). lia.
  - change (Z.pos 1 - 1) with 0. rewrite Z.land_0_r. simpl. lia.
Qed.

Lemma clear_lowest_spec d :
  0 < d < 2 ^ 64 ->
  popcount (clear_lowest d) = popcount d - 1 /\ 0 <= clear_lowest d < 2 ^ 64.
Proof.
  intros Hd. unfold clear_lowest, to_uint64.
  rewrite Z.mod_small by lia.
  destruct d as [|p|p]; try lia.
  destruct (land_pred_pos p) as [H1 H2]. simpl popcount. lia.
Qed.

Lemma lxor_uint64 a b : is_uint64 a -> is_uint64 b -> is_uint64 (Z.lxor a b).
Proof.
  unfold is_uint64. intros Ha Hb.
  assert (Hn : 0 <= Z.lxor a b) by (apply Z.lxor_nonneg; lia).
  split; [exact Hn|].
  destruct (Z.eq_dec (Z.lxor a b) 0) as [->|Hne]; [lia|].
  apply Z.log2_lt_pow2; [lia|].
  destruct (Z.eq_dec a 0) as [->|Ha0].
  - rewrite Z.lxor_0_l in *. apply Z.log2_lt_pow2; lia.
  - destruct (Z.eq_dec b 0) as [->|Hb0].
    + rewrite Z.lxor_0_r in *. apply Z.log2_lt_pow2; lia.
    + pose proof (Z.log2_lxor a b ltac:(lia) ltac:(lia)) as Hl.
      assert (Z.log2 a < 64) by (apply Z.log2_lt_pow2; lia).
      assert (Z.log2 b < 64) by (apply Z.log2_lt_pow2; lia).
      lia.
Qed.

(** One round of the unrolled test on the current value [d]: clear its
    lowest set bit, record what that does to the bit count, and split on
    whether the value is exhausted. *)
Ltac sync_round d :=
  let Hc := fresh "Hc" in
  let Hr := fresh "Hr" in
  let Hz := fresh "Hz" in
  destruct (clear_lowest_spec d ltac:(lia)) as [Hc Hr];
  destruct (Z.eqb_spec (clear_lowest d) 0) as [Hz|Hz];
  [ try rewrite Hz in Hc; simpl popcount in Hc
  | pose proof (popcount_nonneg (clear_lowest d));
    pose proof (proj1 (popcount_zero_iff (clear_lowest d) (proj1 Hr))) ].

(** C6: [SyncWordMatch word expected] holds exactly when [word] and
    [expected] differ in at most 4 bit positions. *)
Theorem SyncWordMatch_iff_popcount (word expected : Z) :
  is_uint64 word -> is_uint64 expected ->
  SyncWordMatch word expected = true <-> popcount (Z.lxor word expected) <= 4.
Proof.
  intros Hw He. unfold SyncWordMatch.
  destruct (Z.eqb_spec word expected) as [->|Hne].
  - rewrite Z.lxor_nilpotent. simpl. split; [lia|reflexivity].
  - cbv zeta.
    pose proof (lxor_uint64 _ _ Hw He) as Hx. unfold is_uint64 in Hx.
    assert (Hd0 : Z.lxor word expected <> 0) by (rewrite Z.lxor_eq_0_iff; exact Hne).
    set (d0 := Z.lxor word expected) in *.
    sync_round d0; [split; [lia|reflexivity]|].
    sync_round (clear_lowest d0); [split; [lia|reflexivity]|].
    sync_round (clear_lowest (clear_lowest d0)); [split; [lia|reflexivity]|].
    sync_round (clear_lowest (clear_lowest (clear_lowest d0))); [split; [lia|reflexivity]|].
    split; [discriminate|lia].
Qed.

Lemma SyncWordMatch_iff_popcount_witness :
  SyncWordMatch (Z.lxor DOWNLINK_SYNC_WORD 0xF) DOWNLINK_SYNC_WORD = true <->
  popcount (Z.lxor (Z.lxor DOWNLINK_SYNC_WORD 0xF) DOWNLINK_SYNC_WORD) <= 4.
Proof.
  apply (SyncWordMatch_iff_popcount (Z.lxor DOWNLINK_SYNC_WORD 0xF) DOWNLINK_SYNC_WORD);
    unfold is_uint64; vm_compute; split; congruence.
Defined.

(** The two boundary cases named with the rule: four differing bits are
    accepted, five are rejected. *)
Example SyncWordMatch_four_errors :
  popcount (Z.lxor (Z.lxor UPLINK_SYNC_WORD 0x800000007) UPLINK_SYNC_WORD) = 4 /\
  SyncWordMatch (Z.lxor UPLINK_SYNC_WORD 0x800000007) UPLINK_SYNC_WORD = true.
Proof. split; reflexivity. Qed.

Example SyncWordMatch_five_errors :
  popcount (Z.lxor (Z.lxor UPLINK_SYNC_WORD 0x80000000F) UPLINK_SYNC_WORD) = 5 /\
  SyncWordMatch (Z.lxor UPLINK_SYNC_WORD 0x80000000F) UPLINK_SYNC_WORD = false.
Proof. split; reflexivity. Qed.

(** ** The table arctangent *)

Lemma to_uint32_small v : 0 <= v < 2 ^ 32 -> to_uint32 v = v.
Proof. intros Hv. unfold to_uint32. apply Z.mod_small. exact Hv. Qed.

Lemma quot_nonneg_bound a b : 0 <= a -> 0 < b -> 0 <= Z.quot a b <= a.
Proof.
  intros Ha Hb. rewrite Z.quot_div_nonneg by lia. split.
  - apply Z.div_pos; lia.
  - apply Z.div_le_upper_bound; nia.
Qed.

(** The argument handed to [TableAtan] is the magnitude of the ratio. *)
Lemma TableAtan2_arg_abs (y x : Z) :
  is_int16 y -> is_int16 x -> x <> 0 ->
  TableAtan2_arg y x = Some (Z.quot (256 * Z.abs y) (Z.abs x)).
Proof.
  unfold is_int16, TableAtan2_arg, c_div. intros Hy Hx Hx0.
  destruct (Z.eqb_spec x 0) as [|_]; [contradiction|].
  destruct (Z.ltb_spec x 0) as [Hxn|Hxp]; destruct (Z.ltb_spec y 0) as [Hyn|Hyp]; f_equal.
  - rewrite (Z.abs_neq y), (Z.abs_neq x) by lia.
    replace (256 * - y) with (- (256 * y)) by lia. rewrite Z.quot_opp_opp by lia.
    apply to_uint32_small.
    rewrite <- (Z.quot_opp_opp (256 * y) x) by lia.
    pose proof (quot_nonneg_bound (- (256 * y)) (- x)). lia.
  - rewrite (Z.abs_eq y), (Z.abs_neq x) by lia.
    rewrite Z.quot_opp_r by lia.
    apply to_uint32_small.
    rewrite <- (Z.quot_opp_r (256 * y) x) by lia.
    pose proof (quot_nonneg_bound (256 * y) (- x)). lia.
  - rewrite (Z.abs_neq y), (Z.abs_eq x) by lia.
    replace (256 * - y) with (- (256 * y)) by lia. rewrite Z.quot_opp_l by lia.
    apply to_uint32_small.
    rewrite <- (Z.quot_opp_l (256 * y) x) by lia.
    pose proof (quot_nonneg_bound (- (256 * y)) x). lia.
  - rewrite (Z.abs_eq y), (Z.abs_eq x) by lia.
    apply to_uint32_small.
    pose proof (quot_nonneg_bound (256 * y) x). lia.
Qed.

(** Every call either saturates or reads at an index between 0 and
    65536, both inclusive: the guard [r > size] lets [r = size] through. *)
Lemma TableAtan2_access_bound (y x : Z) :
  is_int16 y -> is_int16 x -> x <> 0 ->
  TableAtan2_access y x = Some Saturated \/
  exists i, TableAtan2_access y x = Some (TableRead i) /\ 0 <= i <= lookup_atan_size.
Proof.
  intros Hy Hx Hx0. unfold TableAtan2_access.
  rewrite (TableAtan2_arg_abs y x Hy Hx Hx0). simpl.
  unfold TableAtan_access.
  destruct (Z.gtb_spec (Z.quot (256 * Z.abs y) (Z.abs x)) lookup_atan_size) as [Hgt|Hle].
  - now left.
  - right. eexists. split; [reflexivity|].
    unfold is_int16 in *.
    pose proof (quot_nonneg_bound (256 * Z.abs y) (Z.abs x)). lia.
Qed.

(** Whatever the table holds, the read for [y = 256], [x = 1] falls
    outside it. *)
Lemma TableAtan2_256_1_out_of_bounds (lookup_atan_ : list Z) :
  Z.of_nat (length lookup_atan_) = lookup_atan_size ->
  TableAtan2 lookup_atan_ 256 1 = None.
Proof.
  intros Hlen.
  change (TableAtan2 lookup_atan_ 256 1) with (lookup_atan_ !! Z.to_nat 65536).
  apply lookup_ge_None. unfold lookup_atan_size in Hlen. lia.
Qed.

(** C4 (the code misses it): for [y = 256], [x = 1] the ratio index is
    exactly 65536; [TableAtan] does not saturate and reads entry 65536 of
    a table whose last entry is 65535. *)
Theorem TableAtan2_reads_past_table :
  TableAtan2_access 256 1 = Some (TableRead 65536) /\
  lookup_atan_size <= 65536.
Proof.
  split; [reflexivity|]. unfold lookup_atan_size. lia.
Qed.

(** ** The loops of fec.cc in list form *)

Lemma vec_resize_length n v : length (vec_resize n v) = n.
Proof. unfold vec_resize. rewrite length_app, length_take, length_replicate. lia. Qed.

Lemma vec_resize_take n v : (n <= length v)%nat -> vec_resize n v = take n v.
Proof.
  intros Hn. unfold vec_resize.
  replace (n - length v)%nat with 0%nat by lia. apply app_nil_r.
Qed.

Lemma take_S_insert (arr : list Z) i v :
  (i < length arr)%nat -> take (S i) (<[i := v]> arr) = take i arr ++ [v].
Proof.
  intros Hi. rewrite (take_S_r _ _ v) by (apply list_lookup_insert_eq; exact Hi).
  now rewrite take_insert_ge by lia.
Qed.

(** The long-code loop fills the front of the array with the biased
    positions, in order. *)
Lemma mark_long_erasures_array erasures : forall i arr cor,
  (i + length erasures <= length arr)%nat ->
  take (i + length erasures) (mark_long_erasures i erasures arr cor).1 =
  take i arr ++ long_erasures erasures.
Proof.
  induction erasures as [|e rest IH]; intros i arr cor Hlen; simpl in *.
  - rewrite Nat.add_0_r. now rewrite app_nil_r.
  - replace (i + S (length rest))%nat with (S i + length rest)%nat by lia.
    rewrite IH by (rewrite length_insert; lia).
    rewrite take_S_insert by lia. now rewrite <- app_assoc.
Qed.

Lemma mark_long_erasures_length erasures : forall i arr cor,
  length (mark_long_erasures i erasures arr cor).1 = length arr.
Proof.
  induction erasures as [|e rest IH]; intros i arr cor; simpl; [reflexivity|].
  now rewrite IH, length_insert.
Qed.

Lemma clear_erased_nil cor : clear_erased [] cor = cor.
Proof.
  unfold clear_erased. apply list_eq. intros j. rewrite list_lookup_imap.
  destruct (cor !! j); reflexivity.
Qed.

Lemma clear_erased_cons e rest cor :
  0 <= e ->
  clear_erased rest (<[Z.to_nat e := 0]> cor) = clear_erased (e :: rest) cor.
Proof.
  intros He. unfold clear_erased. apply list_eq. intros j.
  rewrite !list_lookup_imap.
  destruct (decide (j = Z.to_nat e)) as [->|Hne].
  - destruct (decide (Z.to_nat e < length cor)%nat) as [Hlt|Hge].
    + rewrite list_lookup_insert_eq by exact Hlt.
      destruct (lookup_lt_is_Some_2 cor (Z.to_nat e) Hlt) as [b Hb]. rewrite Hb. simpl.
      rewrite (bool_decide_eq_true_2 (Z.of_nat (Z.to_nat e) ∈ e :: rest))
        by (rewrite Z2Nat.id by lia; apply list_elem_of_here).
      now destruct (bool_decide _).
    + rewrite list_insert_ge by lia. rewrite lookup_ge_None_2 by lia. reflexivity.
  - rewrite list_lookup_insert_ne by congruence.
    destruct (cor !! j); simpl; [|reflexivity].
    rewrite (bool_decide_ext (Z.of_nat j ∈ rest) (Z.of_nat j ∈ e :: rest)); [reflexivity|].
    rewrite elem_of_cons. split; [tauto|].
    intros [Heq|Hin]; [lia|exact Hin].
Qed.

(** ... and clears exactly the erased bytes. *)
Lemma mark_long_erasures_data erasures : forall i arr cor,
  Forall (fun e => 0 <= e) erasures ->
  (mark_long_erasures i erasures arr cor).2 = clear_erased erasures cor.
Proof.
  induction erasures as [|e rest IH]; intros i arr cor Hnn; simpl.
  - now rewrite clear_erased_nil.
  - inversion Hnn as [|? ? He Hrest]; subst.
    rewrite IH by exact Hrest. now apply clear_erased_cons.
Qed.

(** Both counting loops have one shape: keep the entries that pass a
    test, store their biased value while there is room, count them all.
    The two tactics below run the induction step for either loop. *)
Ltac collect_count_step test IH :=
  rewrite filter_cons; destruct test;
  (rewrite decide_True by assumption) || (rewrite decide_False by lia);
  simpl; rewrite IH; lia.

Lemma collect_short_erasures_count erasures : forall arr count,
  (collect_short_erasures erasures arr count).2 =
  count + Z.of_nat (length (short_erasures erasures)).
Proof.
  unfold short_erasures.
  induction erasures as [|e rest IH]; intros arr count; simpl; [lia|].
  rewrite length_map in *.
  collect_count_step (Z.ltb_spec e DOWNLINK_SHORT_BYTES) IH.
Qed.

Lemma collect_block_erasures_count block erasures : forall arr count,
  (collect_block_erasures block erasures arr count).2 =
  count + Z.of_nat (length (uplink_block_erasures erasures block)).
Proof.
  unfold uplink_block_erasures.
  induction erasures as [|e rest IH]; intros arr count; simpl; [lia|].
  rewrite length_map in *.
  collect_count_step (Z.eqb_spec (e mod UPLINK_BLOCKS_PER_FRAME) block) IH.
Qed.

Lemma collect_short_erasures_array erasures : forall arr count,
  0 <= count ->
  count + Z.of_nat (length (short_erasures erasures)) <= fec.DOWNLINK_SHORT_ROOTS ->
  (Z.to_nat count + length (short_erasures erasures) <= length arr)%nat ->
  take (Z.to_nat count + length (short_erasures erasures))
    (collect_short_erasures erasures arr count).1 =
  take (Z.to_nat count) arr ++ short_erasures erasures.
Proof.
  unfold short_erasures.
  induction erasures as [|e rest IH]; intros arr count Hc Hroom Hlen; simpl.
  - now rewrite Nat.add_0_r, app_nil_r.
  - rewrite filter_cons in *.
    destruct (Z.ltb_spec e DOWNLINK_SHORT_BYTES) as [Hk|Hk].
    + rewrite decide_True in * by exact Hk. simpl in *.
      destruct (Z.ltb_spec count fec.DOWNLINK_SHORT_ROOTS) as [Hlt|Hge]; [|lia].
      set (kept := length (map _ (filter _ rest))) in *.
      replace (Z.to_nat count + S kept)%nat with (Z.to_nat (count + 1) + kept)%nat by lia.
      rewrite IH by (rewrite ?length_insert; lia).
      replace (Z.to_nat (count + 1)) with (S (Z.to_nat count)) by lia.
      rewrite take_S_insert by lia. now rewrite <- app_assoc.
    + rewrite decide_False in * by lia. now apply IH.
Qed.

Lemma collect_block_erasures_array block erasures : forall arr count,
  0 <= count ->
  count + Z.of_nat (length (uplink_block_erasures erasures block)) <= fec.UPLINK_BLOCK_ROOTS ->
  (Z.to_nat count + length (uplink_block_erasures erasures block) <= length arr)%nat ->
  take (Z.to_nat count + length (uplink_block_erasures erasures block))
    (collect_block_erasures block erasures arr count).1 =
  take (Z.to_nat count) arr ++ uplink_block_erasures erasures block.
Proof.
  unfold uplink_block_erasures.
  induction erasures as [|e rest IH]; intros arr count Hc Hroom Hlen; simpl.
  - now rewrite Nat.add_0_r, app_nil_r.
  - rewrite filter_cons in *.
    destruct (Z.eqb_spec (e mod UPLINK_BLOCKS_PER_FRAME) block) as [Hk|Hk].
    + rewrite decide_True in * by exact Hk. simpl in *.
      destruct (Z.ltb_spec count fec.UPLINK_BLOCK_ROOTS) as [Hlt|Hge]; [|lia].
      set (kept := length (map _ (filter _ rest))) in *.
      replace (Z.to_nat count + S kept)%nat with (Z.to_nat (count + 1) + kept)%nat by lia.
      rewrite IH by (rewrite ?length_insert; lia).
      replace (Z.to_nat (count + 1)) with (S (Z.to_nat count)) by lia.
      rewrite take_S_insert by lia. now rewrite <- app_assoc.
    + rewrite decide_False in * by exact Hk. now apply IH.
Qed.

Lemma deinterleave_loop_spec raw block : forall todo i blockdata,
  0 <= i ->
  (Z.to_nat i + todo <= length blockdata)%nat ->
  deinterleave_loop raw block todo i blockdata =
  take (Z.to_nat i) blockdata
  ++ map (fun j => at_index raw (j * UPLINK_BLOCKS_PER_FRAME + block)) (seqZ i (Z.of_nat todo))
  ++ drop (Z.to_nat i + todo) blockdata.
Proof.
  induction todo as [|todo IH]; intros i bd Hi Hlen.
  - simpl. rewrite Nat.add_0_r. now rewrite take_drop.
  - cbn [deinterleave_loop]. rewrite IH by (rewrite ?length_insert; lia).
    replace (Z.to_nat (i + 1)) with (S (Z.to_nat i)) by lia.
    rewrite take_S_insert by lia.
    rewrite drop_insert_lt by lia.
    rewrite (seqZ_cons i (Z.of_nat (S todo))) by lia.
    replace (Z.succ i) with (i + 1) by lia.
    replace (Z.pred (Z.of_nat (S todo))) with (Z.of_nat todo) by lia.
    replace (S (Z.to_nat i) + todo)%nat with (Z.to_nat i + S todo)%nat by lia.
    rewrite <- app_assoc. reflexivity.
Qed.

Lemma deinterleave_loop_full raw block blockdata :
  length blockdata = Z.to_nat UPLINK_BLOCK_BYTES ->
  deinterleave_loop raw block (Z.to_nat UPLINK_BLOCK_BYTES) 0 blockdata = deinterleave raw block.
Proof.
  intros Hlen. rewrite deinterleave_loop_spec by lia.
  change (Z.to_nat 0) with 0%nat. rewrite take_0, drop_ge by lia.
  rewrite app_nil_r. unfold deinterleave. now rewrite Z2Nat.id by (vm_compute; congruence).
Qed.

Lemma deinterleave_length raw b : length (deinterleave raw b) = Z.to_nat UPLINK_BLOCK_BYTES.
Proof. unfold deinterleave. now rewrite length_map, length_seqZ. Qed.

(** ** CorrectDownlink and CorrectUplink *)

(** Replace the protocol constants by their values, for [lia]. *)
Ltac uat_constants :=
  change SYNC_BITS with 36 in *;
  change DOWNLINK_SHORT_DATA_BYTES with 18 in *;
  change DOWNLINK_SHORT_BITS with 240 in *;
  change DOWNLINK_SHORT_BYTES with 30 in *;
  change DOWNLINK_LONG_DATA_BYTES with 34 in *;
  change DOWNLINK_LONG_BITS with 384 in *;
  change DOWNLINK_LONG_BYTES with 48 in *;
  change UPLINK_BLOCK_DATA_BYTES with 72 in *;
  change UPLINK_BLOCK_BYTES with 92 in *;
  change UPLINK_BLOCKS_PER_FRAME with 6 in *;
  change UPLINK_DATA_BYTES with 432 in *;
  change UPLINK_BITS with 4416 in *;
  change UPLINK_BYTES with 552 in *;
  change fec.DOWNLINK_SHORT_ROOTS with 12 in *;
  change fec.DOWNLINK_LONG_ROOTS with 14 in *;
  change fec.UPLINK_BLOCK_ROOTS with 20 in *;
  change fec.DOWNLINK_SHORT_PAD with 225 in *;
  change fec.DOWNLINK_LONG_PAD with 207 in *;
  change fec.UPLINK_BLOCK_PAD with 163 in *.

Section FECTheorems.
Variable decode_rs_char : rs_decoder.

(** The decoder corrects in place: the buffer keeps its length. *)
Hypothesis decode_length : forall code data eras,
  length (data_out (decode_rs_char code data eras)) = length data.

(** A decode that succeeds reports at most [nroots] corrections. *)
Hypothesis decode_bound : forall code data eras,
  n_corrected (decode_rs_char code data eras) <= rs_nroots code.

Lemma clear_erased_length erasures raw : length (clear_erased erasures raw) = length raw.
Proof. unfold clear_erased. apply length_imap. Qed.

Lemma array_after_call_length (out arr : list Z) :
  (length arr <= length (out ++ drop (length out) arr))%nat.
Proof. rewrite length_app, length_drop. lia. Qed.

(** With at most 14 erasures, all inside the buffer, the function is
    the two-try policy and its decoder calls are the long one and, if
    the long attempt was not accepted and the short erasures fit, the
    short one. *)
Lemma CorrectDownlink_unfold raw erasures :
  Z.of_nat (length raw) = DOWNLINK_LONG_BYTES ->
  Z.of_nat (length erasures) <= fec.DOWNLINK_LONG_ROOTS ->
  Forall (fun e => 0 <= e < DOWNLINK_LONG_BYTES) erasures ->
  CorrectDownlink decode_rs_char raw erasures =
  (downlink_policy decode_rs_char raw erasures,
   long_call raw erasures ::
     (if long_accepted decode_rs_char raw erasures then []
      else if Z.of_nat (length (short_erasures erasures)) <=? fec.DOWNLINK_SHORT_ROOTS
      then [short_call decode_rs_char raw erasures] else [])).
Proof.
  intros Hraw Hn Hrange. unfold CorrectDownlink.
  rewrite Hraw, Z.eqb_refl. cbn [negb].
  destruct (Z.gtb_spec (Z.of_nat (length erasures)) fec.DOWNLINK_LONG_ROOTS) as [|_]; [lia|].
  pose proof (mark_long_erasures_array erasures 0
    (replicate (Z.to_nat fec.DOWNLINK_LONG_ROOTS) 0) raw) as Harr.
  pose proof (mark_long_erasures_data erasures 0
    (replicate (Z.to_nat fec.DOWNLINK_LONG_ROOTS) 0) raw) as Hdata.
  pose proof (mark_long_erasures_length erasures 0
    (replicate (Z.to_nat fec.DOWNLINK_LONG_ROOTS) 0) raw) as Halen.
  destruct (mark_long_erasures 0 erasures _ raw) as [arr cor]. simpl in Harr, Hdata, Halen.
  specialize (Harr ltac:(uat_constants; lia)).
  specialize (Hdata ltac:(eapply Forall_impl; [exact Hrange|]; simpl; intros; lia)).
  subst cor. unfold call_decoder, tbind. rewrite Nat2Z.id, Harr.
  fold (long_attempt decode_rs_char raw erasures).
  unfold downlink_policy, long_accepted, short_accepted, header_type.
  set (long := long_attempt decode_rs_char raw erasures).
  pose proof (decode_bound rs_downlink_long_ (clear_erased erasures raw)
                (long_erasures erasures)) as Hb1.
  pose proof (decode_length rs_downlink_long_ (clear_erased erasures raw)
                (long_erasures erasures)) as Hl1.
  fold (long_attempt decode_rs_char raw erasures) in Hb1, Hl1. fold long in Hb1, Hl1.
  rewrite clear_erased_length in Hl1. simpl in Hb1.
  replace (n_corrected long <=? fec.DOWNLINK_LONG_ROOTS) with true
    by (symmetry; apply Z.leb_le; exact Hb1).
  rewrite andb_true_r.
  destruct ((0 <=? n_corrected long) && negb (at_index (data_out long) 0 ≫ 3 =? 0)).
  { unfold tret. rewrite vec_resize_take by (rewrite Hl1; uat_constants; lia).
    reflexivity. }
  set (arr1 := eras_out long ++ drop (length (eras_out long)) arr).
  pose proof (collect_short_erasures_count erasures arr1 0) as Hcount.
  pose proof (collect_short_erasures_array erasures arr1 0) as Hshort.
  destruct (collect_short_erasures erasures arr1 0) as [arr2 count]. simpl in Hcount, Hshort.
  rewrite Z.add_0_l in Hcount, Hshort. subst count.
  destruct (Z.gtb_spec (Z.of_nat (length (short_erasures erasures))) fec.DOWNLINK_SHORT_ROOTS)
    as [Hmany|Hfit].
  { destruct (Z.leb_spec (Z.of_nat (length (short_erasures erasures)))
                fec.DOWNLINK_SHORT_ROOTS) as [|_]; [lia|].
    reflexivity. }
  destruct (Z.leb_spec (Z.of_nat (length (short_erasures erasures)))
              fec.DOWNLINK_SHORT_ROOTS) as [_|]; [|lia].
  rewrite Nat2Z.id. rewrite Hshort; try lia.
  2:{ pose proof (array_after_call_length (eras_out long) arr) as Hlen1. fold arr1 in Hlen1.
      uat_constants. lia. }
  change (take (Z.to_nat 0) arr1 ++ short_erasures erasures)
    with (short_erasures erasures).
  unfold short_call, short_attempt. fold long.
  set (short := decode_rs_char rs_downlink_short_ (data_out long) (short_erasures erasures)).
  pose proof (decode_bound rs_downlink_short_ (data_out long)
                (short_erasures erasures)) as Hb2.
  pose proof (decode_length rs_downlink_short_ (data_out long)
                (short_erasures erasures)) as Hl2.
  fold short in Hb2, Hl2. simpl in Hb2.
  replace (n_corrected short <=? fec.DOWNLINK_SHORT_ROOTS) with true
    by (symmetry; apply Z.leb_le; exact Hb2).
  rewrite andb_true_r. cbn [andb].
  destruct ((0 <=? n_corrected short) && (at_index (data_out short) 0 ≫ 3 =? 0)).
  { unfold tret. rewrite vec_resize_take by (rewrite Hl2, Hl1; uat_constants; lia).
    reflexivity. }
  reflexivity.
Qed.

(** C2 (as amended): with at most 14 erasures, all of them positions of
    the 48-byte buffer, CorrectDownlink is the two-try policy: the long
    attempt is accepted exactly when it succeeds with a non-zero type
    code and yields the first 34 bytes and its count; otherwise the
    short attempt, on the erasures below 30 re-biased by the short pad,
    is accepted exactly when they number at most 12, it succeeds and
    the type code is zero, yielding the first 18 bytes; otherwise the
    call fails. *)
Theorem CorrectDownlink_two_try raw erasures :
  Z.of_nat (length raw) = DOWNLINK_LONG_BYTES ->
  Z.of_nat (length erasures) <= fec.DOWNLINK_LONG_ROOTS ->
  Forall (fun e => 0 <= e < DOWNLINK_LONG_BYTES) erasures ->
  (CorrectDownlink decode_rs_char raw erasures).1 =
  downlink_policy decode_rs_char raw erasures.
Proof.
  intros Hraw Hn Hrange. now rewrite CorrectDownlink_unfold.
Qed.

(** More than 14 erasures: failure at once, no decoder call. *)
Lemma CorrectDownlink_too_many_erasures raw erasures :
  fec.DOWNLINK_LONG_ROOTS < Z.of_nat (length erasures) ->
  CorrectDownlink decode_rs_char raw erasures = (fec_failed, []).
Proof.
  intros Hn. unfold CorrectDownlink.
  destruct (negb _); [reflexivity|].
  destruct (Z.gtb_spec (Z.of_nat (length erasures)) fec.DOWNLINK_LONG_ROOTS); [reflexivity|lia].
Qed.

(** More than 12 erasures inside the short message, once the long
    attempt is out: failure, and the short decoder is not called. *)
Lemma CorrectDownlink_too_many_short_erasures raw erasures :
  Z.of_nat (length raw) = DOWNLINK_LONG_BYTES ->
  Z.of_nat (length erasures) <= fec.DOWNLINK_LONG_ROOTS ->
  Forall (fun e => 0 <= e < DOWNLINK_LONG_BYTES) erasures ->
  long_accepted decode_rs_char raw erasures = false ->
  fec.DOWNLINK_SHORT_ROOTS < Z.of_nat (length (short_erasures erasures)) ->
  CorrectDownlink decode_rs_char raw erasures = (fec_failed, [long_call raw erasures]).
Proof.
  intros Hraw Hn Hrange Hlong Hshort.
  rewrite CorrectDownlink_unfold by assumption.
  unfold downlink_policy, short_accepted. rewrite Hlong.
  destruct (Z.leb_spec (Z.of_nat (length (short_erasures erasures))) fec.DOWNLINK_SHORT_ROOTS);
    [lia|reflexivity].
Qed.

(** *** The uplink block loop *)

(** One block of the loop, entered in a good state: what is called and
    with which outcome. *)
Lemma uplink_blocks_step raw erasures todo block total corrected blockdata :
  uplink_loop_state (S todo) block total blockdata ->
  uplink_blocks decode_rs_char raw erasures (S todo) block total corrected blockdata =
  if Z.of_nat (length (uplink_block_erasures erasures block)) >? fec.UPLINK_BLOCK_ROOTS
  then (fec_failed, [])
  else if block_count decode_rs_char raw erasures block <? 0
  then (fec_failed, [uplink_call raw erasures block])
  else
    tbind (tret tt, [uplink_call raw erasures block])
      (fun _ => uplink_blocks decode_rs_char raw erasures todo (block + 1)
                  (total + block_count decode_rs_char raw erasures block)
                  (corrected ++ block_half decode_rs_char raw erasures block)
                  (data_out (uplink_block decode_rs_char raw erasures block))).
Proof.
  intros (Hb & Htodo & Htotal & Hlen).
  cbn [uplink_blocks]. rewrite deinterleave_loop_full by exact Hlen.
  pose proof (collect_block_erasures_count block erasures
                (replicate (Z.to_nat fec.UPLINK_BLOCK_ROOTS) 0) 0) as Hcount.
  pose proof (collect_block_erasures_array block erasures
                (replicate (Z.to_nat fec.UPLINK_BLOCK_ROOTS) 0) 0) as Harr.
  destruct (collect_block_erasures block erasures _ 0) as [arr count].
  simpl in Hcount, Harr. rewrite Z.add_0_l in Hcount, Harr. subst count.
  destruct (Z.gtb_spec (Z.of_nat (length (uplink_block_erasures erasures block)))
              fec.UPLINK_BLOCK_ROOTS) as [Hmany|Hfit]; [reflexivity|].
  unfold call_decoder, tbind, tret. rewrite Nat2Z.id.
  rewrite Harr by (uat_constants; lia).
  change (take (Z.to_nat 0) (replicate 20 0) ++ uplink_block_erasures erasures block)
    with (uplink_block_erasures erasures block).
  fold (uplink_block decode_rs_char raw erasures block).
  fold (uplink_call raw erasures block).
  fold (block_count decode_rs_char raw erasures block).
  pose proof (decode_bound rs_uplink_ (deinterleave raw block)
                (uplink_block_erasures erasures block)) as Hbound.
  fold (uplink_block decode_rs_char raw erasures block) in Hbound.
  fold (block_count decode_rs_char raw erasures block) in Hbound. simpl in Hbound.
  destruct (Z.gtb_spec (block_count decode_rs_char raw erasures block) fec.UPLINK_BLOCK_ROOTS) as [|_]; [lia|].
  rewrite orb_false_r.
  destruct (Z.ltb_spec (block_count decode_rs_char raw erasures block) 0) as [Hneg|Hpos]; [reflexivity|].
  rewrite to_uint32_small by (uat_constants; lia).
  reflexivity.
Qed.

Lemma uplink_loop_state_next raw erasures todo block total blockdata :
  uplink_loop_state (S todo) block total blockdata ->
  0 <= block_count decode_rs_char raw erasures block ->
  uplink_loop_state todo (block + 1)
    (total + block_count decode_rs_char raw erasures block)
    (data_out (uplink_block decode_rs_char raw erasures block)).
Proof.
  intros (Hb & Htodo & Htotal & Hlen) Hn.
  pose proof (decode_bound rs_uplink_ (deinterleave raw block)
                (uplink_block_erasures erasures block)) as Hbound.
  fold (uplink_block decode_rs_char raw erasures block) in Hbound.
  fold (block_count decode_rs_char raw erasures block) in Hbound. simpl in Hbound.
  unfold uplink_loop_state, uplink_block.
  rewrite decode_length, deinterleave_length. uat_constants. lia.
Qed.

(** All remaining blocks recovered: the halves are appended in block
    order, the counts added up, and each block is decoded once. *)
Lemma uplink_blocks_ok raw erasures : forall todo block total corrected blockdata,
  uplink_loop_state todo block total blockdata ->
  (forall b, block <= b < block + Z.of_nat todo ->
             uplink_block_ok decode_rs_char raw erasures b) ->
  uplink_blocks decode_rs_char raw erasures todo block total corrected blockdata =
  ((true,
    corrected ++ concat (map (block_half decode_rs_char raw erasures)
                           (seqZ block (Z.of_nat todo))),
    total + sum_list (map (block_count decode_rs_char raw erasures)
                        (seqZ block (Z.of_nat todo)))),
   map (uplink_call raw erasures) (seqZ block (Z.of_nat todo))).
Proof.
  induction todo as [|todo IH]; intros block total corrected bd Hst Hok.
  - simpl. unfold tret. now rewrite app_nil_r, Z.add_0_r.
  - rewrite uplink_blocks_step by exact Hst.
    destruct (Hok block ltac:(lia)) as [Hfit Hn].
    fold (block_count decode_rs_char raw erasures block) in Hn.
    destruct (Z.gtb_spec (Z.of_nat (length (uplink_block_erasures erasures block)))
                fec.UPLINK_BLOCK_ROOTS) as [|_]; [lia|].
    destruct (Z.ltb_spec (block_count decode_rs_char raw erasures block) 0) as [|_]; [lia|].
    unfold tbind, tret.
    rewrite IH;
      [|exact (uplink_loop_state_next raw erasures todo block total bd Hst Hn)
       |intros b Hb; apply Hok; lia].
    rewrite (seqZ_cons block (Z.of_nat (S todo))) by lia.
    replace (Z.succ block) with (block + 1) by lia.
    replace (Z.pred (Z.of_nat (S todo))) with (Z.of_nat todo) by lia.
    simpl. rewrite <- app_assoc, Z.add_assoc. reflexivity.
Qed.

(** One remaining block not recovered: the call fails. *)
Lemma uplink_blocks_fail raw erasures : forall todo block total corrected blockdata b,
  uplink_loop_state todo block total blockdata ->
  block <= b < block + Z.of_nat todo ->
  ~ uplink_block_ok decode_rs_char raw erasures b ->
  (uplink_blocks decode_rs_char raw erasures todo block total corrected blockdata).1 =
  fec_failed.
Proof.
  induction todo as [|todo IH]; intros block total corrected bd b Hst Hb Hbad; [lia|].
  rewrite uplink_blocks_step by exact Hst.
  destruct (Z.gtb_spec (Z.of_nat (length (uplink_block_erasures erasures block)))
              fec.UPLINK_BLOCK_ROOTS) as [|Hfit]; [reflexivity|].
  destruct (Z.ltb_spec (block_count decode_rs_char raw erasures block) 0) as [|Hn];
    [reflexivity|].
  assert (b <> block) by (intros ->; apply Hbad; split; assumption).
  unfold tbind, tret.
  specialize (IH (block + 1) (total + block_count decode_rs_char raw erasures block)
                (corrected ++ block_half decode_rs_char raw erasures block)
                (data_out (uplink_block decode_rs_char raw erasures block)) b
                (uplink_loop_state_next raw erasures todo block total bd Hst Hn) ltac:(lia) Hbad).
  destruct (uplink_blocks _ _ _ _ _ _ _ _) as [res calls]. simpl in *. exact IH.
Qed.

(** The decoder is called for the blocks in order, and never for a
    block whose erasures exceed the code: the calls stop before it. *)
Lemma uplink_blocks_calls raw erasures : forall todo block total corrected blockdata b,
  uplink_loop_state todo block total blockdata ->
  block <= b < block + Z.of_nat todo ->
  fec.UPLINK_BLOCK_ROOTS < Z.of_nat (length (uplink_block_erasures erasures b)) ->
  exists k, 0 <= k <= b - block /\
    (uplink_blocks decode_rs_char raw erasures todo block total corrected blockdata).2 =
    map (uplink_call raw erasures) (seqZ block k).
Proof.
  induction todo as [|todo IH]; intros block total corrected bd b Hst Hb Hmany; [lia|].
  rewrite uplink_blocks_step by exact Hst.
  destruct (Z.gtb_spec (Z.of_nat (length (uplink_block_erasures erasures block)))
              fec.UPLINK_BLOCK_ROOTS) as [|Hfit].
  { exists 0. split; [lia|reflexivity]. }
  assert (b <> block) by (intros ->; lia).
  destruct (Z.ltb_spec (block_count decode_rs_char raw erasures block) 0) as [|Hn].
  { exists 1. split; [lia|reflexivity]. }
  unfold tbind, tret.
  destruct (IH (block + 1) (total + block_count decode_rs_char raw erasures block)
              (corrected ++ block_half decode_rs_char raw erasures block)
              (data_out (uplink_block decode_rs_char raw erasures block)) b
              (uplink_loop_state_next raw erasures todo block total bd Hst Hn) ltac:(lia) Hmany)
    as (k & Hk & Hcalls).
  destruct (uplink_blocks _ _ _ _ _ _ _ _) as [res calls]. simpl in *.
  exists (k + 1). split; [lia|].
  rewrite (seqZ_cons block (k + 1)) by lia.
  replace (Z.succ block) with (block + 1) by lia.
  replace (Z.pred (k + 1)) with k by lia.
  simpl. now rewrite Hcalls.
Qed.

Lemma uplink_initial_state :
  uplink_loop_state (Z.to_nat UPLINK_BLOCKS_PER_FRAME) 0 0
    (vec_resize (Z.to_nat UPLINK_BLOCK_BYTES) []).
Proof.
  unfold uplink_loop_state. rewrite vec_resize_length. uat_constants. lia.
Qed.

Lemma block_half_length raw erasures b :
  length (block_half decode_rs_char raw erasures b) = Z.to_nat UPLINK_BLOCK_DATA_BYTES.
Proof.
  unfold block_half, uplink_block.
  rewrite length_take, decode_length, deinterleave_length. uat_constants. lia.
Qed.

Lemma CorrectUplink_all_ok raw erasures :
  Z.of_nat (length raw) = UPLINK_BYTES ->
  (forall b, 0 <= b < UPLINK_BLOCKS_PER_FRAME ->
             uplink_block_ok decode_rs_char raw erasures b) ->
  (CorrectUplink decode_rs_char raw erasures).1 =
  (true,
   concat (map (block_half decode_rs_char raw erasures) (seqZ 0 UPLINK_BLOCKS_PER_FRAME)),
   sum_list (map (block_count decode_rs_char raw erasures) (seqZ 0 UPLINK_BLOCKS_PER_FRAME))).
Proof.
  intros Hraw Hok. unfold CorrectUplink. rewrite Hraw, Z.eqb_refl. cbn [negb].
  rewrite (uplink_blocks_ok raw erasures _ 0 0 [] _ uplink_initial_state).
  - reflexivity.
  - intros b Hb. apply Hok. uat_constants. lia.
Qed.

Lemma CorrectUplink_some_bad raw erasures b :
  Z.of_nat (length raw) = UPLINK_BYTES ->
  0 <= b < UPLINK_BLOCKS_PER_FRAME ->
  ~ uplink_block_ok decode_rs_char raw erasures b ->
  (CorrectUplink decode_rs_char raw erasures).1 = fec_failed.
Proof.
  intros Hraw Hb Hbad. unfold CorrectUplink. rewrite Hraw, Z.eqb_refl. cbn [negb].
  apply (uplink_blocks_fail raw erasures _ 0 0 [] _ b uplink_initial_state);
    [uat_constants; lia|exact Hbad].
Qed.

Lemma uplink_halves_length raw erasures :
  Z.of_nat (length (concat (map (block_half decode_rs_char raw erasures)
                              (seqZ 0 UPLINK_BLOCKS_PER_FRAME)))) = UPLINK_DATA_BYTES.
Proof.
  change (seqZ 0 UPLINK_BLOCKS_PER_FRAME) with [0; 1; 2; 3; 4; 5].
  simpl. rewrite !length_app, !block_half_length. reflexivity.
Qed.

(** C3: a 552-byte frame is taken apart into the six blocks
    [deinterleave raw b], with [block_b[i] = raw[i * 6 + b]]; each is
    decoded on its own with the erasures [uplink_block_erasures
    erasures b], those of raw index [b] modulo 6 re-biased to
    [index / 6 + pad].  If all six are recovered the result is the six
    72-byte data halves in block order, 432 bytes, with the counts
    added up; if any one is not, the call fails. *)
Theorem CorrectUplink_blocks raw erasures :
  Z.of_nat (length raw) = UPLINK_BYTES ->
  (forall b i, 0 <= i < UPLINK_BLOCK_BYTES ->
     deinterleave raw b !! Z.to_nat i = Some (at_index raw (i * 6 + b)))
  /\
  ((forall b, 0 <= b < UPLINK_BLOCKS_PER_FRAME ->
              uplink_block_ok decode_rs_char raw erasures b) ->
   (CorrectUplink decode_rs_char raw erasures).1 =
   (true,
    concat (map (block_half decode_rs_char raw erasures) (seqZ 0 UPLINK_BLOCKS_PER_FRAME)),
    sum_list (map (block_count decode_rs_char raw erasures) (seqZ 0 UPLINK_BLOCKS_PER_FRAME)))
   /\ Z.of_nat (length (concat (map (block_half decode_rs_char raw erasures)
                                  (seqZ 0 UPLINK_BLOCKS_PER_FRAME)))) = UPLINK_DATA_BYTES)
  /\
  ((exists b, 0 <= b < UPLINK_BLOCKS_PER_FRAME /\
              ~ uplink_block_ok decode_rs_char raw erasures b) ->
   (CorrectUplink decode_rs_char raw erasures).1 = fec_failed).
Proof.
  intros Hraw. split; [|split].
  - intros b i Hi. unfold deinterleave.
    rewrite list_lookup_fmap, lookup_seqZ_lt by lia. simpl.
    now rewrite Z2Nat.id by lia.
  - intros Hok. split; [now apply CorrectUplink_all_ok|apply uplink_halves_length].
  - intros (b & Hb & Hbad). now apply (CorrectUplink_some_bad raw erasures b).
Qed.

(** C8: an erasure list larger than the code about to be used can take
    is refused before that code's decoder runs.  Downlink, more than 14
    erasures: failure and no decoder call at all.  Downlink, the long
    attempt not accepted and more than 12 erasures inside the short
    message: failure, and the long call remains the only one.  Uplink,
    more than 20 erasures falling into block [b]: failure, and the
    decoder has run for blocks before [b] only. *)
Theorem erasure_limits raw erasures :
  (fec.DOWNLINK_LONG_ROOTS < Z.of_nat (length erasures) ->
   CorrectDownlink decode_rs_char raw erasures = (fec_failed, []))
  /\
  (Z.of_nat (length raw) = DOWNLINK_LONG_BYTES ->
   Z.of_nat (length erasures) <= fec.DOWNLINK_LONG_ROOTS ->
   Forall (fun e => 0 <= e < DOWNLINK_LONG_BYTES) erasures ->
   long_accepted decode_rs_char raw erasures = false ->
   fec.DOWNLINK_SHORT_ROOTS < Z.of_nat (length (short_erasures erasures)) ->
   CorrectDownlink decode_rs_char raw erasures = (fec_failed, [long_call raw erasures]))
  /\
  (Z.of_nat (length raw) = UPLINK_BYTES ->
   forall b, 0 <= b < UPLINK_BLOCKS_PER_FRAME ->
     fec.UPLINK_BLOCK_ROOTS < Z.of_nat (length (uplink_block_erasures erasures b)) ->
     (CorrectUplink decode_rs_char raw erasures).1 = fec_failed /\
     exists k, 0 <= k <= b /\
       (CorrectUplink decode_rs_char raw erasures).2 =
       map (uplink_call raw erasures) (seqZ 0 k)).
Proof.
  split; [apply CorrectDownlink_too_many_erasures|].
  split; [apply CorrectDownlink_too_many_short_erasures|].
  intros Hraw b Hb Hmany. unfold CorrectUplink. rewrite Hraw, Z.eqb_refl. cbn [negb].
  split.
  - apply (uplink_blocks_fail raw erasures _ 0 0 [] _ b uplink_initial_state);
      [uat_constants; lia|].
    intros [Hfit _]. lia.
  - destruct (uplink_blocks_calls raw erasures _ 0 0 [] _ b uplink_initial_state
                ltac:(uat_constants; lia) Hmany) as (k & Hk & Hcalls).
    exists k. split; [lia|exact Hcalls].
Qed.

(** *** Payload sizes *)

Lemma CorrectDownlink_payload_size raw erasures corrected errors :
  (CorrectDownlink decode_rs_char raw erasures).1 = (true, corrected, errors) ->
  Z.of_nat (length corrected) = DOWNLINK_LONG_DATA_BYTES \/
  Z.of_nat (length corrected) = DOWNLINK_SHORT_DATA_BYTES.
Proof.
  unfold CorrectDownlink, call_decoder, tbind, tret, fec_failed.
  destruct (negb _); [discriminate|].
  destruct (_ >? _); [discriminate|].
  destruct (mark_long_erasures _ _ _ _) as [arr cor].
  destruct (_ && _ && _).
  { simpl. intros [= <- _]. left. now rewrite vec_resize_length. }
  destruct (collect_short_erasures _ _ _) as [arr2 count].
  destruct (_ >? _); [discriminate|].
  destruct (_ && _ && _); [|discriminate].
  simpl. intros [= <- _]. right. now rewrite vec_resize_length.
Qed.

Lemma uplink_block_ok_dec raw erasures b :
  {uplink_block_ok decode_rs_char raw erasures b} +
  {~ uplink_block_ok decode_rs_char raw erasures b}.
Proof.
  unfold uplink_block_ok.
  destruct (Z_le_dec (Z.of_nat (length (uplink_block_erasures erasures b)))
              fec.UPLINK_BLOCK_ROOTS);
    destruct (Z_le_dec 0 (n_corrected (uplink_block decode_rs_char raw erasures b)));
    try (left; split; assumption); right; intros [? ?]; contradiction.
Qed.

Lemma CorrectUplink_payload_size raw erasures corrected errors :
  (CorrectUplink decode_rs_char raw erasures).1 = (true, corrected, errors) ->
  Z.of_nat (length corrected) = UPLINK_DATA_BYTES.
Proof.
  intros Hres.
  destruct (Z.eq_dec (Z.of_nat (length raw)) UPLINK_BYTES) as [Hraw|Hraw].
  2:{ unfold CorrectUplink in Hres.
      destruct (Z.eqb_spec (Z.of_nat (length raw)) UPLINK_BYTES); [contradiction|].
      discriminate. }
  assert (Hok : forall b, 0 <= b < UPLINK_BLOCKS_PER_FRAME ->
                          uplink_block_ok decode_rs_char raw erasures b).
  { intros b Hb. destruct (uplink_block_ok_dec raw erasures b) as [Hy|Hn]; [exact Hy|].
    rewrite (CorrectUplink_some_bad raw erasures b Hraw Hb Hn) in Hres. discriminate. }
  rewrite (CorrectUplink_all_ok raw erasures Hraw Hok) in Hres.
  injection Hres as <- _. apply uplink_halves_length.
Qed.
End FECTheorems.

(** ** The demodulator *)

Section DemodulatorTheorems.
Variable decode_rs_char : rs_decoder.
Hypothesis decode_length : forall code data eras,
  length (data_out (decode_rs_char code data eras)) = length data.
Hypothesis decode_bound : forall code data eras,
  n_corrected (decode_rs_char code data eras) <= rs_nroots code.
Variable phase : list Z.

Lemma DemodOneDownlink_frame start m :
  DemodOneDownlink decode_rs_char phase start = Some m ->
  message_begin m = start /\ well_framed m.
Proof.
  unfold DemodOneDownlink.
  destruct (DemodBits _ _ _ _ _) as [raw erasures].
  destruct (CorrectDownlink decode_rs_char raw erasures).1 as [[success corrected] errors] eqn:Hfec.
  destruct success; simpl; [|discriminate].
  intros [= <-]. simpl. split; [reflexivity|].
  unfold well_framed, frame_bits. simpl.
  destruct (CorrectDownlink_payload_size decode_rs_char raw erasures corrected errors Hfec)
    as [Hlen|Hlen]; rewrite Hlen; simpl.
  - exists DOWNLINK_LONG_BITS. split; [reflexivity|lia].
  - exists DOWNLINK_SHORT_BITS. split; [reflexivity|lia].
Qed.

Lemma DemodOneUplink_frame start m :
  DemodOneUplink decode_rs_char phase start = Some m ->
  message_begin m = start /\ well_framed m.
Proof.
  unfold DemodOneUplink.
  destruct (DemodBits _ _ _ _ _) as [raw erasures].
  destruct (CorrectUplink decode_rs_char raw erasures).1 as [[success corrected] errors] eqn:Hfec.
  destruct success; simpl; [|discriminate].
  intros [= <-]. simpl. split; [reflexivity|].
  unfold well_framed, frame_bits. simpl.
  rewrite (CorrectUplink_payload_size decode_rs_char decode_length decode_bound
             raw erasures corrected errors Hfec). simpl.
  exists UPLINK_BITS. split; [reflexivity|lia].
Qed.

Lemma DemodBest_frame start downlink m :
  DemodBest decode_rs_char phase start downlink = Some m ->
  start <= message_begin m <= start + 1 /\ well_framed m.
Proof.
  unfold DemodBest.
  assert (H0 : forall m0, (if downlink then DemodOneDownlink decode_rs_char phase start
                           else DemodOneUplink decode_rs_char phase start) = Some m0 ->
                          message_begin m0 = start /\ well_framed m0).
  { intros m0. destruct downlink; [apply DemodOneDownlink_frame|apply DemodOneUplink_frame]. }
  assert (H1 : forall m1, (if downlink then DemodOneDownlink decode_rs_char phase (start + 1)
                           else DemodOneUplink decode_rs_char phase (start + 1)) = Some m1 ->
                          message_begin m1 = start + 1 /\ well_framed m1).
  { intros m1. destruct downlink; [apply DemodOneDownlink_frame|apply DemodOneUplink_frame]. }
  destruct (if downlink then DemodOneDownlink decode_rs_char phase start
            else DemodOneUplink decode_rs_char phase start) as [m0|];
    destruct (if downlink then DemodOneDownlink decode_rs_char phase (start + 1)
              else DemodOneUplink decode_rs_char phase (start + 1)) as [m1|];
    simpl; try discriminate;
    try (destruct (_ <=? _)); try discriminate; intros [= <-];
    try (destruct (H0 _ eq_refl) as [-> ?]; split; [lia|assumption]);
    try (destruct (H1 _ eq_refl) as [-> ?]; split; [lia|assumption]).
Qed.

Lemma find_frame_frame probe sync0 sync1 m :
  find_frame decode_rs_char phase probe sync0 sync1 = Some m ->
  probe - 70 <= message_begin m <= probe - 68 /\ well_framed m.
Proof.
  unfold find_frame, try_sync.
  repeat match goal with
         | |- context [SyncWordMatch ?a ?b] => destruct (SyncWordMatch a b)
         | |- context [DemodBest ?d ?p ?s ?dl] =>
             let Hb := fresh "Hb" in
             pose proof (DemodBest_frame s dl) as Hb;
             destruct (DemodBest d p s dl)
         end;
    try discriminate; intros [= <-];
    match goal with
    | Hb : forall m0, Some ?m = Some m0 -> _ |- _ =>
        destruct (Hb m eq_refl) as [? ?]; split; [uat_constants; lia|assumption]
    end.
Qed.

Lemma to_uint32_step v : 0 <= v -> 0 <= to_uint32 (v + 1) <= v + 1.
Proof.
  intros Hv. unfold to_uint32.
  pose proof (Z.mod_pos_bound (v + 1) (2 ^ 32) ltac:(lia)).
  pose proof (Z.mod_le (v + 1) (2 ^ 32) ltac:(lia) ltac:(lia)). lia.
Qed.

(** The probe loop returns, and every message it adds lies inside the
    span and is well framed.  [sync_bits] pairs have been shifted in
    since [begin] or since the end of the last message. *)
Lemma Demodulate_loop_messages begin end_ : forall fuel probe sync_bits sync0 sync1 messages,
  let limit := end_ - (SYNC_BITS + UPLINK_BITS) * 2 in
  (0 < fuel)%nat ->
  limit - probe < Z.of_nat fuel ->
  0 <= sync_bits ->
  begin + 2 * sync_bits <= probe ->
  Forall (fun m => within_span begin end_ m /\ well_framed m) messages ->
  exists result,
    Demodulate_loop decode_rs_char phase fuel probe limit sync_bits sync0 sync1 messages
    = Some result /\
    Forall (fun m => within_span begin end_ m /\ well_framed m) result.
Proof.
  intros fuel. induction fuel as [|fuel IH];
    intros probe sync_bits sync0 sync1 messages limit Hfuel Hmeasure Hbits Hprobe Hacc;
    [lia|].
  cbn [Demodulate_loop]. fold limit.
  destruct (Z.ltb_spec probe limit) as [Hin|Hout]; cbn [negb].
  2:{ exists messages. split; [reflexivity|exact Hacc]. }
  pose proof (to_uint32_step sync_bits Hbits) as Hstep.
  set (bits' := to_uint32 (sync_bits + 1)) in *.
  set (s0 := push_sync_bit sync0 _). set (s1 := push_sync_bit sync1 _).
  destruct (Z.ltb_spec bits' SYNC_BITS) as [Hfew|Hfull].
  { apply IH; try lia; assumption. }
  pose proof (find_frame_frame probe s0 s1) as Hframe.
  destruct (find_frame decode_rs_char phase probe s0 s1) as [m|].
  - destruct (Hframe m eq_refl) as [Hbegin Hshape].
    assert (Hlen : 552 <= message_end m - message_begin m <= 8904).
    { destruct Hshape as (bits & Hbits' & Hend). rewrite Hend. unfold frame_bits in Hbits'.
      repeat (destruct (_ =? _) in Hbits'; [injection Hbits' as <-; uat_constants; lia|]).
      discriminate. }
    replace (message_end m - 2 + 2) with (message_end m) by lia.
    unfold limit in *. uat_constants.
    apply IH; try lia.
    apply Forall_app. split; [exact Hacc|].
    apply Forall_cons. split; [|constructor].
    split; [unfold within_span; lia|exact Hshape].
  - unfold limit in *. uat_constants. apply IH; try lia; assumption.
Qed.

(** C10: [Demodulate] returns, and each message of its list has its
    sample range inside [begin, end_) and as long as the frame of its
    payload size: [(SYNC_BITS + bits) * 2] samples with [bits] the
    short, long or uplink bit count for 18, 34 or 432 payload bytes. *)
Theorem Demodulate_messages_in_span begin end_ :
  exists messages,
    Demodulate decode_rs_char phase begin end_ = Some messages /\
    forall m, m ∈ messages ->
      begin <= message_begin m /\ message_end m <= end_ /\
      exists bits,
        frame_bits (Z.of_nat (length (payload m))) = Some bits /\
        message_end m - message_begin m = (SYNC_BITS + bits) * 2.
Proof.
  unfold Demodulate.
  destruct (Z.ltb_spec (end_ - begin) ((SYNC_BITS + UPLINK_BITS) * 2)) as [Hshort|Hlong].
  { exists []. split; [reflexivity|]. intros m Hm. inversion Hm. }
  destruct (Demodulate_loop_messages begin end_
              (S (Z.to_nat (end_ - (SYNC_BITS + UPLINK_BITS) * 2 - begin))) begin 0 0 0 [])
    as (result & Hres & Hall); try lia; [constructor|].
  exists result. split; [exact Hres|].
  intros m Hm. rewrite Forall_forall in Hall.
  destruct (Hall m Hm) as [[Hb He] Hshape]. auto.
Qed.
End DemodulatorTheorems.

(** ** The receiver *)

Section ReceiverTheorems.
Variable decode_rs_char : rs_decoder.
Hypothesis decode_length : forall code data eras,
  length (data_out (decode_rs_char code data eras)) = length data.
Hypothesis decode_bound : forall code data eras,
  n_corrected (decode_rs_char code data eras) <= rs_nroots code.
Variable double : Type.
Variable BytesPerSample : Z.
Variable ConvertPhase : list Z -> list Z.
Variable ConvertMagSq : list Z -> list double.
Variable rssi_of_magsq : list double -> double.

Local Abbreviation handle :=
  (HandleSamples decode_rs_char double BytesPerSample ConvertPhase ConvertMagSq rssi_of_magsq).
Local Abbreviation frames := (demodulated decode_rs_char BytesPerSample ConvertPhase).
Local Abbreviation total := (total_samples BytesPerSample).
Local Abbreviation staged := (staged_samples BytesPerSample).

(** The frames of a call exist and start inside the phase buffer. *)
Lemma demodulated_frames rx buffer :
  exists messages, frames rx buffer = Some messages /\
                   Forall (fun m => 0 <= message_begin m <= total rx buffer) messages.
Proof.
  unfold demodulated, Demodulate.
  destruct (Z.ltb_spec (total rx buffer - 0) ((SYNC_BITS + UPLINK_BITS) * 2)).
  { exists []. split; [reflexivity|constructor]. }
  destruct (Demodulate_loop_messages decode_rs_char decode_length decode_bound
              (staged_phase BytesPerSample ConvertPhase rx buffer) 0 (total rx buffer)
              (S (Z.to_nat (total rx buffer - (SYNC_BITS + UPLINK_BITS) * 2 - 0)))
              0 0 0 0 [])
    as (result & Hres & Hall); try lia; [constructor|].
  exists result. split; [exact Hres|].
  eapply Forall_impl; [exact Hall|]. intros m [[Hb He] (bits & Hbits & Hlen)].
  unfold frame_bits in Hbits.
  repeat (destruct (_ =? _) in Hbits; [injection Hbits as <-; uat_constants; lia|]).
  discriminate.
Qed.

Lemma HandleSamples_saved rx timestamp buffer rx' out :
  handle rx timestamp buffer = Some (rx', out) ->
  saved_samples_ rx' = Z.min (total rx buffer) NumTrailingSamples.
Proof.
  unfold HandleSamples.
  destruct (frames rx buffer) as [messages|]; [|discriminate].
  destruct (Z.gtb_spec (total rx buffer) NumTrailingSamples);
    intros [= <- _]; simpl; lia.
Qed.

Lemma HandleSamples_returns rx timestamp buffer :
  exists rx' out, handle rx timestamp buffer = Some (rx', out).
Proof.
  unfold HandleSamples.
  destruct (demodulated_frames rx buffer) as (messages & -> & _).
  destruct (_ >? _); eauto.
Qed.

(** *** What is kept for the next call *)

Lemma copy_into_length dst pos src :
  (pos + length src <= length dst)%nat -> length (copy_into dst pos src) = length dst.
Proof.
  intros Hfit. unfold copy_into.
  rewrite !length_app, !length_take, length_drop. lia.
Qed.

Lemma copy_into_fits dst pos src :
  (pos + length src <= length dst)%nat ->
  copy_into dst pos src = take pos dst ++ src ++ drop (pos + length src) dst.
Proof.
  intros Hfit. unfold copy_into. now rewrite (take_ge src) by lia.
Qed.

(** A chunk of whole samples adds its bytes to those of the saved
    samples. *)
Lemma total_bytes_split rx buffer :
  0 < BytesPerSample ->
  Z.of_nat (length buffer) mod BytesPerSample = 0 ->
  total rx buffer * BytesPerSample =
  saved_samples_ rx * BytesPerSample + Z.of_nat (length buffer).
Proof.
  intros Hbps Hwhole. unfold total_samples.
  pose proof (Z.div_mod (Z.of_nat (length buffer)) BytesPerSample ltac:(lia)). nia.
Qed.

(** [samples_] is grown to the data of the call and never shrunk. *)
Lemma staged_samples_length rx buffer :
  0 < BytesPerSample -> 0 <= saved_samples_ rx ->
  Z.of_nat (length buffer) mod BytesPerSample = 0 ->
  Z.of_nat (length (staged rx buffer)) =
  Z.max (Z.of_nat (length (samples_ rx))) (total rx buffer * BytesPerSample).
Proof.
  intros Hbps Hsaved Hwhole.
  pose proof (total_bytes_split rx buffer Hbps Hwhole) as Hsplit.
  assert (0 <= saved_samples_ rx * BytesPerSample) by nia.
  unfold staged_samples.
  destruct (Z.ltb_spec (Z.of_nat (length (samples_ rx))) (total rx buffer * BytesPerSample)).
  - rewrite copy_into_length; rewrite vec_resize_length; lia.
  - rewrite copy_into_length; lia.
Qed.

(** The data of the call, saved samples first, is what [samples_]
    starts with when the conversion reads it. *)
Lemma staged_samples_prefix rx buffer :
  0 < BytesPerSample -> 0 <= saved_samples_ rx ->
  saved_samples_ rx * BytesPerSample <= Z.of_nat (length (samples_ rx)) ->
  Z.of_nat (length buffer) mod BytesPerSample = 0 ->
  take (Z.to_nat (total rx buffer * BytesPerSample)) (staged rx buffer) =
  call_input BytesPerSample rx buffer.
Proof.
  intros Hbps Hsaved Hinside Hwhole.
  pose proof (total_bytes_split rx buffer Hbps Hwhole) as Hsplit.
  assert (Hprev : 0 <= saved_samples_ rx * BytesPerSample) by nia.
  unfold staged_samples, call_input.
  set (prev := Z.to_nat (saved_samples_ rx * BytesPerSample)).
  set (tot := Z.to_nat (total rx buffer * BytesPerSample)).
  assert (Htot : tot = (prev + length buffer)%nat) by lia.
  assert (Hcopy : forall dst, (tot <= length dst)%nat ->
            take prev dst = take prev (samples_ rx) ->
            take tot (copy_into dst prev buffer) = take prev (samples_ rx) ++ buffer).
  { intros dst Hdst Hpre. rewrite copy_into_fits by lia. rewrite <- Hpre.
    rewrite app_assoc. rewrite take_app_le by (rewrite length_app, length_take; lia).
    apply take_ge. rewrite length_app, length_take. lia. }
  destruct (Z.ltb_spec (Z.of_nat (length (samples_ rx))) (total rx buffer * BytesPerSample)).
  - apply Hcopy; [rewrite vec_resize_length; lia|].
    unfold vec_resize. rewrite take_app_le by (rewrite length_take; lia).
    rewrite take_take. f_equal. lia.
  - apply Hcopy; [lia|reflexivity].
Qed.

(** With more samples than the reserve, a call keeps the last 8904
    samples of [samples_] itself, wherever in it the data of the call
    ends. *)
Lemma HandleSamples_keeps_vector_end rx timestamp buffer rx' out :
  0 < BytesPerSample -> 0 <= saved_samples_ rx ->
  Z.of_nat (length buffer) mod BytesPerSample = 0 ->
  NumTrailingSamples < total rx buffer ->
  handle rx timestamp buffer = Some (rx', out) ->
  saved_samples_ rx' = NumTrailingSamples /\
  saved_data BytesPerSample rx' =
  last_n (Z.to_nat (NumTrailingSamples * BytesPerSample)) (staged rx buffer).
Proof.
  intros Hbps Hsaved Hwhole Hmany Hrun.
  pose proof (staged_samples_length rx buffer Hbps Hsaved Hwhole) as Hlen.
  unfold HandleSamples in Hrun.
  destruct (frames rx buffer) as [messages|]; [|discriminate].
  destruct (Z.gtb_spec (total rx buffer) NumTrailingSamples) as [_|]; [|lia].
  injection Hrun as <- _. unfold saved_data, last_n. cbn [saved_samples_ samples_].
  split; [reflexivity|].
  change NumTrailingSamples with 8904 in *.
  assert (Htail : (Z.to_nat (8904 * BytesPerSample) <= length (staged rx buffer))%nat) by nia.
  rewrite copy_into_fits by (rewrite length_drop; lia).
  rewrite take_0. cbn [app].
  rewrite take_app_le by (rewrite length_drop; lia).
  apply take_ge. rewrite length_drop. lia.
Qed.

(** X11: while [samples_] is no longer than the data of the call, what
    is kept is the end of that data: its last 8904 samples, or all of it
    when it has no more. *)
Lemma HandleSamples_keeps_last_samples rx timestamp buffer rx' out :
  0 < BytesPerSample -> 0 <= saved_samples_ rx ->
  saved_samples_ rx * BytesPerSample <= Z.of_nat (length (samples_ rx)) ->
  Z.of_nat (length buffer) mod BytesPerSample = 0 ->
  Z.of_nat (length (samples_ rx)) <= total rx buffer * BytesPerSample ->
  handle rx timestamp buffer = Some (rx', out) ->
  saved_samples_ rx' = Z.min (total rx buffer) NumTrailingSamples /\
  saved_data BytesPerSample rx' =
  last_n (Z.to_nat (saved_samples_ rx' * BytesPerSample)) (call_input BytesPerSample rx buffer).
Proof.
  intros Hbps Hsaved Hinside Hwhole Hshort Hrun.
  pose proof (staged_samples_prefix rx buffer Hbps Hsaved Hinside Hwhole) as Hdata.
  pose proof (staged_samples_length rx buffer Hbps Hsaved Hwhole) as Hlen.
  rewrite Z.max_r in Hlen by lia.
  rewrite take_ge in Hdata by lia.
  destruct (Z.lt_ge_cases NumTrailingSamples (total rx buffer)) as [Hmany|Hfew].
  - destruct (HandleSamples_keeps_vector_end rx timestamp buffer rx' out
                Hbps Hsaved Hwhole Hmany Hrun) as [Hcount Hkept].
    split; [lia|]. now rewrite Hkept, Hcount, Hdata.
  - unfold HandleSamples in Hrun.
    destruct (frames rx buffer) as [messages|]; [|discriminate].
    destruct (Z.gtb_spec (total rx buffer) NumTrailingSamples) as [|_]; [lia|].
    injection Hrun as <- _. unfold saved_data, last_n. cbn [saved_samples_ samples_].
    split; [lia|]. fold (staged rx buffer). rewrite Hdata. rewrite Hdata in Hlen.
    rewrite take_ge by lia.
    replace (length (call_input BytesPerSample rx buffer)
             - Z.to_nat (total rx buffer * BytesPerSample))%nat with 0%nat by lia.
    reflexivity.
Qed.

(** A call leaves the receiver as the next call needs it. *)
Lemma HandleSamples_ok rx timestamp buffer rx' out :
  0 < BytesPerSample -> receiver_ok BytesPerSample rx ->
  Z.of_nat (length buffer) mod BytesPerSample = 0 ->
  handle rx timestamp buffer = Some (rx', out) ->
  receiver_ok BytesPerSample rx'.
Proof.
  intros Hbps [Hsaved Hinside] Hwhole Hrun.
  pose proof (staged_samples_length rx buffer Hbps ltac:(lia) Hwhole) as Hlen.
  unfold HandleSamples in Hrun.
  destruct (frames rx buffer) as [messages|]; [|discriminate].
  unfold receiver_ok. change NumTrailingSamples with 8904 in *.
  assert (Htotal : 0 <= total rx buffer).
  { unfold total_samples. pose proof (Z.div_pos (Z.of_nat (length buffer)) BytesPerSample). lia. }
  destruct (Z.gtb_spec (total rx buffer) 8904) as [Hmany|Hfew];
    injection Hrun as <- _; cbn [saved_samples_ samples_]; fold (staged rx buffer).
  - split; [lia|].
    rewrite copy_into_length by (rewrite length_drop; lia). nia.
  - split; [lia|]. lia.
Qed.

Lemma to_uint64_small v : 0 <= v < 2 ^ 64 -> to_uint64 v = v.
Proof. intros Hv. unfold to_uint64. now apply Z.mod_small. Qed.

(** The 64-bit computation of the timestamp is the rule of the spec
    reduced modulo [2^64]. *)
Lemma message_timestamp_frame_time timestamp previous_samples message_begin :
  0 <= previous_samples <= NumTrailingSamples ->
  0 <= message_begin -> 1000 * message_begin < 2 ^ 63 ->
  message_timestamp timestamp previous_samples message_begin =
  to_uint64 (frame_time timestamp previous_samples message_begin).
Proof.
  change NumTrailingSamples with 8904. intros Hprev Hbegin Hfits.
  unfold message_timestamp, frame_time, c_div, to_uint64.
  rewrite (Z.mod_small (1000 * previous_samples)) by lia.
  rewrite !Z.quot_div_nonneg by lia.
  assert (Hq : 0 <= 1000 * message_begin / 2083333 < 2 ^ 64).
  { split; [apply Z.div_pos; lia|].
    apply Z.div_lt_upper_bound; lia. }
  rewrite (Z.mod_small (1000 * message_begin / 2083333)) by exact Hq.
  rewrite Zplus_mod_idemp_l. reflexivity.
Qed.

(** C9: every message a call hands on carries the timestamp
    [chunk_timestamp - 1000 * saved_samples / 2083333
     + 1000 * frame_sample_start / 2083333], divisions truncating,
    where [saved_samples] is the tail kept by the previous call and
    [frame_sample_start] the position of the frame in the phase buffer.
    The receiver computes it in 64-bit unsigned arithmetic, so the
    value is that of the rule modulo [2^64], and the rule itself
    whenever that is a 64-bit unsigned number. *)
Theorem frame_timestamps rx timestamp buffer rx' out :
  0 <= saved_samples_ rx <= NumTrailingSamples ->
  1000 * total rx buffer < 2 ^ 63 ->
  handle rx timestamp buffer = Some (rx', out) ->
  exists messages,
    frames rx buffer = Some messages /\
    Forall2
      (fun (rm : RawMessage double) (m : Message) =>
         payload_ rm = payload m /\
         received_at_ rm =
           to_uint64 (frame_time timestamp (saved_samples_ rx) (message_begin m)) /\
         (is_uint64 (frame_time timestamp (saved_samples_ rx) (message_begin m)) ->
          received_at_ rm = frame_time timestamp (saved_samples_ rx) (message_begin m)))
      out messages.
Proof.
  intros Hsaved Hfits Hrun. unfold HandleSamples in Hrun.
  destruct (demodulated_frames rx buffer) as (messages & Hframes & Hpos).
  rewrite Hframes in Hrun. exists messages. split; [exact Hframes|].
  assert (Hout : out = map (dispatch_message double BytesPerSample ConvertMagSq rssi_of_magsq
                              (staged_samples BytesPerSample rx buffer) timestamp
                              (saved_samples_ rx)) messages)
    by (destruct (_ >? _); injection Hrun as _ <-; reflexivity).
  subst out. apply Forall2_fmap_l. apply Forall_Forall2_diag.
  eapply Forall_impl; [exact Hpos|]. intros m Hm. simpl in Hm |- *.
  rewrite message_timestamp_frame_time by (try assumption; lia).
  split; [reflexivity|]. split; [reflexivity|].
  intros Hu. now apply to_uint64_small.
Qed.
End ReceiverTheorems.

(** ** Evaluation on concrete inputs *)

Lemma check_only_decoder_length code data eras :
  length (data_out (check_only_decoder code data eras)) = length data.
Proof. unfold check_only_decoder. now destruct (is_codeword code data). Qed.

Lemma check_only_decoder_bound code data eras :
  n_corrected (check_only_decoder code data eras) <= rs_nroots code.
Proof.
  unfold check_only_decoder. destruct (is_codeword code data), code; simpl; uat_constants; lia.
Qed.

(** A clean basic frame at the start of the buffer is found once, with
    no corrections, over the samples [0, 552). *)
Example Demodulate_clean_frame :
  Demodulate check_only_decoder clean_frame_phase 0 9072 =
  Some [{| payload := replicate 18 0; corrected_errors := 0;
           message_begin := 0; message_end := 552 |}].
Proof. vm_compute. reflexivity. Qed.

Lemma Demodulate_messages_in_span_witness :
  exists messages,
    Demodulate check_only_decoder clean_frame_phase 0 9072 = Some messages /\
    forall m, m ∈ messages ->
      0 <= message_begin m /\ message_end m <= 9072 /\
      exists bits,
        frame_bits (Z.of_nat (length (payload m))) = Some bits /\
        message_end m - message_begin m = (SYNC_BITS + bits) * 2.
Proof.
  exact (Demodulate_messages_in_span check_only_decoder check_only_decoder_length
           check_only_decoder_bound clean_frame_phase 0 9072).
Defined.

Lemma CorrectDownlink_two_try_witness :
  (CorrectDownlink check_only_decoder (replicate 48 0) [3; 40]).1 =
  downlink_policy check_only_decoder (replicate 48 0) [3; 40].
Proof.
  apply (CorrectDownlink_two_try check_only_decoder check_only_decoder_length
           check_only_decoder_bound).
  - reflexivity.
  - vm_compute. congruence.
  - repeat constructor; uat_constants; lia.
Defined.

(** C2 as stated fails: a clean all-zero frame with 15 erasures, all
    past byte 30.  The long decode succeeds with type code 0, no erasure
    lies inside the short message, the short decode succeeds with type
    code 0, and yet CorrectDownlink reports failure: with more than 14
    erasures it returns before any decode.  The same frame with 13
    erasures, all before byte 30, fails as well: both decodes succeed
    with type code 0, but 13 erasures are more than the short code is
    given. *)
Lemma CorrectDownlink_no_short_retry :
  let raw := replicate 48 0 in
  (let erasures := seqZ 30 15 in
   n_corrected (long_attempt check_only_decoder raw erasures) = 0 /\
   header_type (data_out (long_attempt check_only_decoder raw erasures)) = 0 /\
   short_erasures erasures = [] /\
   n_corrected (short_attempt check_only_decoder raw erasures) = 0 /\
   header_type (data_out (short_attempt check_only_decoder raw erasures)) = 0 /\
   (CorrectDownlink check_only_decoder raw erasures).1 = fec_failed)
  /\
  (let erasures := seqZ 0 13 in
   n_corrected (long_attempt check_only_decoder raw erasures) = 0 /\
   header_type (data_out (long_attempt check_only_decoder raw erasures)) = 0 /\
   n_corrected (short_attempt check_only_decoder raw erasures) = 0 /\
   header_type (data_out (short_attempt check_only_decoder raw erasures)) = 0 /\
   (CorrectDownlink check_only_decoder raw erasures).1 = fec_failed).
Proof. vm_compute. repeat split; reflexivity. Qed.

Lemma CorrectUplink_blocks_witness :
  (CorrectUplink check_only_decoder (replicate 552 0) [7]).1 = (true, replicate 432 0, 0).
Proof.
  destruct (CorrectUplink_blocks check_only_decoder check_only_decoder_length
              check_only_decoder_bound (replicate 552 0) [7] eq_refl) as (_ & Hok & _).
  destruct Hok as [Hres _].
  - intros b Hb.
    assert (Hcases : b = 0 \/ b = 1 \/ b = 2 \/ b = 3 \/ b = 4 \/ b = 5)
      by (uat_constants; lia).
    destruct Hcases as [->|[->|[->|[->|[->| ->]]]]]; vm_compute; split; congruence.
  - rewrite Hres. vm_compute. reflexivity.
Defined.

Lemma erasure_limits_witness :
  CorrectDownlink check_only_decoder (replicate 48 0) (seqZ 30 15) = (fec_failed, []) /\
  CorrectDownlink check_only_decoder (replicate 48 0) (seqZ 0 13) =
    (fec_failed, [long_call (replicate 48 0) (seqZ 0 13)]) /\
  (CorrectUplink check_only_decoder (replicate 552 0) (map (fun i => 6 * i) (seqZ 0 21))).1
    = fec_failed /\
  exists k, 0 <= k <= 0 /\
    (CorrectUplink check_only_decoder (replicate 552 0) (map (fun i => 6 * i) (seqZ 0 21))).2
    = map (uplink_call (replicate 552 0) (map (fun i => 6 * i) (seqZ 0 21))) (seqZ 0 k).
Proof.
  split; [|split].
  - apply (proj1 (erasure_limits check_only_decoder check_only_decoder_length
                    check_only_decoder_bound (replicate 48 0) (seqZ 30 15))).
    vm_compute. reflexivity.
  - apply (proj1 (proj2 (erasure_limits check_only_decoder check_only_decoder_length
                           check_only_decoder_bound (replicate 48 0) (seqZ 0 13)))).
    + reflexivity.
    + vm_compute. congruence.
    + change (seqZ 0 13) with [0;1;2;3;4;5;6;7;8;9;10;11;12].
      repeat constructor; uat_constants; lia.
    + vm_compute. reflexivity.
    + vm_compute. reflexivity.
  - apply (proj2 (proj2 (erasure_limits check_only_decoder check_only_decoder_length
                           check_only_decoder_bound (replicate 552 0)
                           (map (fun i => 6 * i) (seqZ 0 21)))) eq_refl 0).
    + uat_constants. lia.
    + vm_compute. reflexivity.
Defined.

(** C1 (the code misses it): the reserve is
    [(SYNC_BITS + UPLINK_BITS) * 2 = 8904] samples, not 936, and the
    samples kept for the next call are not always the last ones
    received.  [samples_] is only ever grown and the tail is copied
    from its end, so once a chunk is smaller than an earlier one the
    end of [samples_] lies past the data of the call.  A receiver fed
    the samples 0..8999 keeps the last 8904 of them in a [samples_] of
    18000 bytes; fed the samples 9000..9009 next, it has 8914 samples
    to work on, 17828 bytes, and keeps 8904 samples again: 192..8999,
    9000..9009 and the stale 8914..8999, where the last 8904 samples
    received are 106..9009. *)
Theorem HandleSamples_keeps_stale_samples :
  NumTrailingSamples = (SYNC_BITS + UPLINK_BITS) * 2 /\
  NumTrailingSamples = 8904 /\
  (fun run => (saved_samples_ run.1, Z.of_nat (length (samples_ run.1)), kept_samples run.1))
    <$> HandleChunks_le16 fresh_receiver [(1, ramp_chunk 0 9000)] =
  Some (8904, 18000, last_n (Z.to_nat 8904) (samples_from 0 9000)) /\
  (fun run => (saved_samples_ run.1, Z.of_nat (length (samples_ run.1)), kept_samples run.1))
    <$> HandleChunks_le16 fresh_receiver
          [(1, ramp_chunk 0 9000); (5, ramp_chunk 9000 10)] =
  Some (8904, 18000, samples_from 192 8808 ++ samples_from 9000 10 ++ samples_from 8914 86) /\
  last_n (Z.to_nat 8904) (samples_from 0 9000 ++ samples_from 9000 10) = samples_from 106 8904 /\
  samples_from 192 8808 ++ samples_from 9000 10 ++ samples_from 8914 86 <>
  last_n (Z.to_nat 8904) (samples_from 0 9000 ++ samples_from 9000 10).
Proof.
  split; [reflexivity|]. split; [reflexivity|].
  split; [vm_compute; reflexivity|].
  split; [vm_compute; reflexivity|].
  split; [vm_compute; reflexivity|].
  intros Hsame. apply (f_equal head) in Hsame. vm_compute in Hsame. discriminate.
Qed.

(** The clean frame, received in a first chunk stamped 1000 ms, is handed
    on once as a basic downlink message stamped 1000 ms. *)
Example HandleSamples_clean_frame :
  (fun run => (saved_samples_ run.1,
               map (fun rm => (type_ rm, payload_ rm, received_at_ rm, errors_ rm)) run.2))
    <$> HandleSamples_le16 fresh_receiver 1000 clean_frame_chunk =
  Some (8904, [(DOWNLINK_SHORT, replicate 18 0, 1000, 0)]).
Proof. vm_compute. reflexivity. Qed.

Lemma frame_timestamps_witness :
  exists rx' out messages,
    HandleSamples_le16 fresh_receiver 1000 clean_frame_chunk = Some (rx', out) /\
    demodulated check_only_decoder 2 phase_of_le16 fresh_receiver clean_frame_chunk
      = Some messages /\
    Forall2
      (fun (rm : RawMessage unit) (m : Message) =>
         payload_ rm = payload m /\
         received_at_ rm = to_uint64 (frame_time 1000 0 (message_begin m)) /\
         (is_uint64 (frame_time 1000 0 (message_begin m)) ->
          received_at_ rm = frame_time 1000 0 (message_begin m)))
      out messages.
Proof.
  destruct (HandleSamples_returns check_only_decoder check_only_decoder_length
              check_only_decoder_bound unit 2 phase_of_le16 (fun _ => []) (fun _ => tt)
              fresh_receiver 1000 clean_frame_chunk) as (rx' & out & Hrun).
  exists rx', out.
  destruct (frame_timestamps check_only_decoder check_only_decoder_length
              check_only_decoder_bound unit 2 phase_of_le16 (fun _ => []) (fun _ => tt)
              fresh_receiver 1000 clean_frame_chunk rx' out
              ltac:(vm_compute; split; congruence) ltac:(vm_compute; reflexivity) Hrun)
    as (messages & Hframes & Hall).
  exists messages. split; [exact Hrun|]. split; [exact Hframes|exact Hall].
Defined.

(** ** The raw line parser *)

Lemma offset_of_bound c rest k :
  offset_of c rest = Some k -> (k < length rest)%nat.
Proof.
  revert k. induction rest as [|x rest IH]; intros k; simpl; [discriminate|].
  destruct (Ascii.eqb x c).
  - intros [= <-]. lia.
  - destruct (offset_of c rest) as [k'|]; simpl; [|discriminate].
    intros [= <-]. specialize (IH k' eq_refl). lia.
Qed.

(** A character that does not occur in [pre] is found behind it. *)
Lemma offset_of_app c pre rest :
  c ∉ pre -> offset_of c (pre ++ rest) = Nat.add (length pre) <$> offset_of c rest.
Proof.
  induction pre as [|x pre IH]; intros Hnot; simpl.
  - now destruct (offset_of c rest).
  - apply not_elem_of_cons in Hnot as [Hne Hnot].
    destruct (Ascii.eqb_spec x c) as [->|_]; [contradiction|].
    rewrite IH by exact Hnot. now destruct (offset_of c rest).
Qed.

Lemma offset_of_head c rest : offset_of c (c :: rest) = Some 0%nat.
Proof. simpl. now rewrite Ascii.eqb_refl. Qed.

Lemma find_bound line c pos j :
  find line c pos = Some j -> (pos <= j < length line)%nat.
Proof.
  unfold find. destruct (offset_of c (drop pos line)) as [k|] eqn:Hk; simpl; [|discriminate].
  intros [= <-]. apply offset_of_bound in Hk. rewrite length_drop in Hk. lia.
Qed.

(** Searching behind a prefix is searching the rest. *)
Lemma find_shift head s c i :
  find (head ++ s) c (length head + i) = Nat.add (length head) <$> find s c i.
Proof.
  unfold find. rewrite drop_app_add.
  destruct (offset_of c (drop i s)); simpl; [f_equal; lia|reflexivity].
Qed.

Lemma substr_shift head s i n :
  substr (head ++ s) (length head + i) n = substr s i n.
Proof. unfold substr. now rewrite drop_app_add. Qed.

Lemma char_at_shift head s i : char_at (head ++ s) (length head + i) = char_at s i.
Proof. unfold char_at. now rewrite lookup_app_r, Nat.add_comm, Nat.add_sub by lia. Qed.

Lemma char_at_cons x s i : char_at (x :: s) (S i) = char_at s i.
Proof. reflexivity. Qed.

(** The hex loop reads the digits between [i] and [eod] two by two. *)
Lemma parse_hex_digits digits : forall fuel head tail payload,
  Nat.Even (length digits) ->
  (length digits <= 2 * fuel)%nat ->
  parse_hex fuel (head ++ digits ++ tail) (length head + length digits) (length head) payload
  = app payload <$> hex_bytes digits.
Proof.
  induction digits as [digits IH] using (induction_ltof1 _ (@length ascii)).
  unfold ltof in IH. intros fuel head tail payload Heven Hfuel.
  destruct digits as [|c1 [|c2 rest]].
  - simpl. rewrite Nat.add_0_r.
    destruct fuel; simpl; [now rewrite app_nil_r|].
    rewrite Nat.ltb_irrefl. now rewrite app_nil_r.
  - destruct Heven as [k Hk]. simpl in Hk. lia.
  - destruct fuel as [|fuel]; [simpl in Hfuel; lia|].
    cbn [parse_hex hex_bytes].
    destruct (Nat.ltb_spec (length head) (length head + length (c1 :: c2 :: rest)));
      [|simpl in *; lia].
    replace (char_at (head ++ (c1 :: c2 :: rest) ++ tail) (length head)) with c1
      by (rewrite <- (Nat.add_0_r (length head)) at 1; now rewrite char_at_shift).
    replace (char_at (head ++ (c1 :: c2 :: rest) ++ tail) (length head + 1)) with c2
      by (now rewrite char_at_shift).
    destruct ((hexvalue c1 <? 0) || (hexvalue c2 <? 0)); [reflexivity|].
    specialize (IH rest ltac:(simpl; lia) fuel (head ++ [c1; c2]) tail
                  (payload ++ [to_uint8 (Z.lor (Z.shiftl (hexvalue c1) 4) (hexvalue c2))])).
    rewrite length_app in IH. simpl length in IH.
    replace (head ++ (c1 :: c2 :: rest) ++ tail) with ((head ++ [c1; c2]) ++ rest ++ tail)
      by (now rewrite <- app_assoc).
    replace (length head + length (c1 :: c2 :: rest))%nat
      with (length head + 2 + length rest)%nat by (simpl; lia).
    rewrite IH.
    + destruct (hex_bytes rest); simpl; [|reflexivity].
      now rewrite <- app_assoc.
    + destruct Heven as [k Hk]. simpl in Hk. exists (k - 1)%nat. lia.
    + simpl in Hfuel. lia.
Qed.

Lemma hex_bytes_even digits payload :
  hex_bytes digits = Some payload -> Nat.Even (length digits).
Proof.
  revert payload. induction digits as [digits IH] using (induction_ltof1 _ (@length ascii)).
  unfold ltof in IH. intros payload.
  destruct digits as [|c1 [|c2 rest]]; simpl.
  - intros _. exists 0%nat. reflexivity.
  - discriminate.
  - destruct (_ || _); [discriminate|].
    destruct (hex_bytes rest) as [bytes|] eqn:Hrest; simpl; [|discriminate].
    intros _. destruct (IH rest ltac:(simpl; lia) bytes Hrest) as [k Hk].
    exists (S k). lia.
Qed.

Section ParserTheorems.
Variable F : Type.
Variable float_zero : F.
Variable stoi : list ascii -> option Z.
Variable stod : list ascii -> option F.
Variable stoll : list ascii -> option Z.
Variable millis_of : F -> Z.

Local Abbreviation parse := (ParseLine F float_zero stoi stod stoll millis_of).
Local Abbreviation fields_from := (parse_fields F float_zero stoi stod stoll millis_of).
Local Abbreviation update := (update_field F float_zero stoi stod stoll millis_of).

(** A line with a payload prefix, in list form: everything up to the
    first semicolon is the hex payload. *)
Lemma ParseLine_payload line :
  (2 <= length line)%nat ->
  char_at line 0 = "-"%char \/ char_at line 0 = "+"%char ->
  parse line =
  match find line ";" 1 with
  | None => None
  | Some eod =>
      match hex_bytes (substr line 1 (eod - 1)) with
      | None => None
      | Some payload =>
          Some (payload_message F float_zero stoi stod stoll millis_of line eod payload)
      end
  end.
Proof.
  intros Hlen Hprefix. unfold ParseLine.
  destruct (Nat.ltb_spec (length line) 2) as [|_]; [lia|].
  assert (Hbang : Ascii.eqb (char_at line 0) "!" = false)
    by (destruct Hprefix as [-> | ->]; reflexivity).
  assert (Hsign : negb (Ascii.eqb (char_at line 0) "-") && negb (Ascii.eqb (char_at line 0) "+")
                  = false) by (destruct Hprefix as [-> | ->]; reflexivity).
  rewrite Hbang, Hsign.
  destruct (find line ";" 1) as [eod|] eqn:Hfind; [|reflexivity].
  apply find_bound in Hfind.
  set (digits := substr line 1 (eod - 1)).
  assert (Hdigits : length digits = (eod - 1)%nat)
    by (unfold digits, substr; rewrite length_take, length_drop; lia).
  assert (Hline : line = take 1 line ++ digits ++ drop eod line).
  { unfold digits, substr. rewrite <- (take_drop 1 line) at 1. f_equal.
    rewrite <- (take_drop (eod - 1) (drop 1 line)) at 1. f_equal.
    rewrite drop_drop. f_equal. lia. }
  assert (Hhead : length (take 1 line) = 1%nat) by (rewrite length_take; lia).
  destruct (Nat.eqb_spec ((eod - 1) mod 2) 0) as [Heven|Hodd]; cbn [negb].
  - pose proof (parse_hex_digits digits eod (take 1 line) (drop eod line) []) as Hhex.
    rewrite <- Hline, Hhead, Hdigits in Hhex.
    replace (1 + (eod - 1))%nat with eod in Hhex by lia.
    rewrite Hhex.
    + destruct (hex_bytes digits); reflexivity.
    + exists ((eod - 1) / 2)%nat.
      pose proof (Nat.div_mod_eq (eod - 1) 2). lia.
    + lia.
  - destruct (hex_bytes digits) as [payload|] eqn:Hbytes; [|reflexivity].
    apply hex_bytes_even in Hbytes. rewrite Hdigits in Hbytes.
    destruct Hbytes as [k Hk]. exfalso. apply Hodd. rewrite Hk.
    rewrite Nat.mul_comm. apply Nat.Div0.mod_mul.
Qed.

(** The field loop behind a prefix is the field loop on the rest. *)
Lemma parse_fields_shift head s : forall fuel i fields,
  fields_from fuel (head ++ s) (length head + i) fields = fields_from fuel s i fields.
Proof.
  induction fuel as [|fuel IH]; intros i fields; [reflexivity|].
  cbn [parse_fields]. rewrite length_app, !find_shift.
  destruct (Nat.ltb_spec (length head + i) (length head + length s));
    destruct (Nat.ltb_spec i (length s)); try lia; [|reflexivity].
  destruct (find s "=" i) as [equals|]; [|reflexivity].
  destruct (find s ";" i) as [semicolon|]; [|reflexivity]. simpl.
  destruct (Nat.ltb_spec (length head + semicolon) (length head + equals));
    destruct (Nat.ltb_spec semicolon equals); try lia; [reflexivity|].
  replace (length head + equals - (length head + i))%nat with (equals - i)%nat by lia.
  replace (length head + equals + 1)%nat with (length head + (equals + 1))%nat by lia.
  replace (length head + semicolon - (length head + equals) - 1)%nat
    with (semicolon - equals - 1)%nat by lia.
  replace (length head + semicolon + 1)%nat with (length head + (semicolon + 1))%nat by lia.
  rewrite !substr_shift. apply IH.
Qed.

(** Any fuel that covers the rest of the line gives the same fields. *)
Lemma parse_fields_fuel line : forall fuel1 fuel2 i fields,
  (length line - i <= fuel1)%nat -> (length line - i <= fuel2)%nat ->
  fields_from fuel1 line i fields = fields_from fuel2 line i fields.
Proof.
  induction fuel1 as [|fuel1 IH]; intros fuel2 i fields H1 H2.
  - destruct fuel2; [reflexivity|]. simpl.
    destruct (Nat.ltb_spec i (length line)); [lia|reflexivity].
  - destruct fuel2 as [|fuel2].
    + simpl. destruct (Nat.ltb_spec i (length line)); [lia|reflexivity].
    + cbn [parse_fields].
      destruct (Nat.ltb_spec i (length line)); [|reflexivity].
      destruct (find line "=" i) as [equals|]; [|reflexivity].
      destruct (find line ";" i) as [semicolon|] eqn:Hsemi; [|reflexivity].
      apply find_bound in Hsemi.
      destruct (semicolon <? equals)%nat; [reflexivity|].
      apply IH; lia.
Qed.

Lemma update_field_unknown key value fields :
  ~ known_key key -> update key value fields = fields.
Proof.
  unfold known_key, update_field. intros Hunknown.
  repeat (destruct (decide _) as [Hkey|_]; [exfalso; apply Hunknown; tauto|]).
  reflexivity.
Qed.

(** A pair with an unknown key at the front of the rest of the line is
    stepped over, leaving the fields as they were. *)
Lemma parse_fields_skip_unknown key value tail fuel fields :
  "="%char ∉ key -> ";"%char ∉ key -> ";"%char ∉ value ->
  ~ known_key key ->
  fields_from (S fuel) (key ++ "="%char :: value ++ ";"%char :: tail) 0 fields =
  fields_from fuel tail 0 fields.
Proof.
  intros Heq Hsemi Hsemi' Hunknown.
  set (line := key ++ "="%char :: value ++ ";"%char :: tail).
  assert (Hequals : find line "=" 0 = Some (length key)).
  { unfold find, line. rewrite drop_0, offset_of_app, offset_of_head by exact Heq.
    simpl. f_equal. lia. }
  assert (Hsemicolon : find line ";" 0 = Some (length key + 1 + length value)%nat).
  { unfold find, line. rewrite drop_0.
    replace (key ++ "="%char :: value ++ ";"%char :: tail)
      with ((key ++ "="%char :: value) ++ ";"%char :: tail)
      by (now rewrite <- app_assoc).
    rewrite offset_of_app, offset_of_head.
    - simpl. f_equal. rewrite length_app. simpl. lia.
    - rewrite elem_of_app, elem_of_cons. intros [?|[?|?]]; try contradiction. discriminate. }
  cbn [parse_fields]. rewrite Hequals, Hsemicolon.
  destruct (Nat.ltb_spec 0 (length line)) as [_|Hempty].
  2:{ unfold line in Hempty. rewrite length_app in Hempty. simpl in Hempty. lia. }
  destruct (Nat.ltb_spec (length key + 1 + length value) (length key)) as [|_]; [lia|].
  assert (Hkey : substr line 0 (length key - 0) = key).
  { unfold substr, line. rewrite drop_0, Nat.sub_0_r. now rewrite take_app_length. }
  assert (Hvalue : substr line (length key + 1)
                     (length key + 1 + length value - length key - 1) = value).
  { unfold substr, line.
    replace (key ++ "="%char :: value ++ ";"%char :: tail)
      with ((key ++ ["="%char]) ++ value ++ ";"%char :: tail) by (now rewrite <- app_assoc).
    replace (length key + 1)%nat with (length (key ++ ["="%char]) + 0)%nat
      by (rewrite length_app; simpl; lia).
    rewrite drop_app_add, drop_0.
    replace (length (key ++ ["="%char]) + 0 + length value - length key - 1)%nat
      with (length value) by (rewrite length_app; simpl; lia).
    now rewrite take_app_length. }
  rewrite Hkey, Hvalue, update_field_unknown by exact Hunknown.
  replace line with ((key ++ "="%char :: value ++ [";"%char]) ++ tail)
    by (unfold line; rewrite <- !app_assoc; simpl; now rewrite <- app_assoc).
  replace (length key + 1 + length value + 1)%nat
    with (length (key ++ "="%char :: value ++ [";"%char]) + 0)%nat
    by (rewrite !length_app; simpl; rewrite length_app; simpl; lia).
  apply parse_fields_shift.
Qed.

Lemma find_payload_end p hex rest :
  ";"%char ∉ hex -> find (p :: hex ++ ";"%char :: rest) ";" 1 = Some (S (length hex)).
Proof.
  intros Hsemi. unfold find. cbn [drop]. rewrite drop_0.
  rewrite offset_of_app, offset_of_head by exact Hsemi. simpl. f_equal. lia.
Qed.

Lemma substr_payload p hex rest :
  substr (p :: hex ++ ";"%char :: rest) 1 (S (length hex) - 1) = hex.
Proof.
  unfold substr. cbn [drop]. rewrite drop_0.
  replace (S (length hex) - 1)%nat with (length hex) by lia.
  now rewrite take_app_length.
Qed.

(** The fields of a payload line are read from what follows the
    payload's semicolon. *)
Lemma payload_line_fields p hex rest :
  fields_from (length (p :: hex ++ ";"%char :: rest)) (p :: hex ++ ";"%char :: rest)
    (S (length hex) + 1) (no_fields F float_zero) =
  fields_from (length rest) rest 0 (no_fields F float_zero).
Proof.
  replace (p :: hex ++ ";"%char :: rest) with ((p :: hex ++ [";"%char]) ++ rest)
    by (simpl; now rewrite <- app_assoc).
  replace (S (length hex) + 1)%nat with (length (p :: hex ++ [";"%char]) + 0)%nat
    by (simpl; rewrite length_app; simpl; lia).
  rewrite parse_fields_shift. apply parse_fields_fuel; rewrite ?length_app; lia.
Qed.

(** On a payload line, a pair with an unknown key right behind the
    payload can be left out without changing the result. *)
Lemma ParseLine_unknown_pair p hex key value tail :
  p = "-"%char \/ p = "+"%char ->
  ";"%char ∉ hex -> "="%char ∉ key -> ";"%char ∉ key -> ";"%char ∉ value ->
  ~ known_key key ->
  parse (p :: hex ++ ";"%char :: key ++ "="%char :: value ++ ";"%char :: tail) =
  parse (p :: hex ++ ";"%char :: tail).
Proof.
  intros Hp Hhex Heq Hsemi Hsemi' Hunknown.
  rewrite !ParseLine_payload; try exact Hp; try (simpl; rewrite length_app; simpl; lia).
  rewrite !find_payload_end by exact Hhex. rewrite !substr_payload.
  destruct (hex_bytes hex) as [payload|]; [|reflexivity].
  unfold payload_message. rewrite !payload_line_fields.
  rewrite (parse_fields_fuel (key ++ "="%char :: value ++ ";"%char :: tail) _
             (S (length (key ++ "="%char :: value ++ ";"%char :: tail))) 0) by lia.
  rewrite parse_fields_skip_unknown by assumption.
  rewrite (parse_fields_fuel tail _ (length tail) 0).
  - reflexivity.
  - rewrite length_app. simpl. rewrite length_app. simpl. lia.
  - lia.
Qed.

(** What the parser does with a payload line: it accepts exactly the
    lines whose payload is a run of hex digit pairs closed by a
    semicolon, whatever the number of bytes, and types the message by
    that number. *)
Lemma ParseLine_accepts line :
  (2 <= length line)%nat ->
  char_at line 0 = "-"%char \/ char_at line 0 = "+"%char ->
  ((exists m, parse line = Some m) <->
   (exists eod payload, find line ";" 1 = Some eod /\
                        hex_bytes (substr line 1 (eod - 1)) = Some payload)) /\
  (forall m, parse line = Some m ->
     (exists eod, find line ";" 1 = Some eod /\
                  hex_bytes (substr line 1 (eod - 1)) = Some (payload_ m)) /\
     type_ m = type_of_size (Z.of_nat (length (payload_ m)))).
Proof.
  intros Hlen Hprefix. rewrite (ParseLine_payload line Hlen Hprefix).
  destruct (find line ";" 1) as [eod|].
  2:{ split; [split; [intros [m [=]]|intros (eod & payload & [=] & _)]|intros m [=]]. }
  destruct (hex_bytes (substr line 1 (eod - 1))) as [payload|] eqn:Hbytes.
  - split.
    + split; [intros _; exists eod, payload; split; [reflexivity|exact Hbytes]|eauto].
    + intros m [= <-]. split; [exists eod; split; [reflexivity|exact Hbytes]|reflexivity].
  - split.
    + split; [intros [m [=]]|].
      intros (eod' & payload & [= <-] & Hb). rewrite Hbytes in Hb. discriminate.
    + intros m [=].
Qed.
End ParserTheorems.

(** C5 (as amended): any payload line whose payload is a run of hex
    digit pairs closed by a semicolon is accepted, whatever the number
    of bytes; the message carries those bytes and is typed by their
    number: 18 basic downlink, 34 long downlink, 432 uplink, and INVALID
    for every other length, which is not a parse error.  A pair whose
    key is none of [rs], [rssi], [t], [rt] changes no field, and a line
    reads the same with or without such a pair behind its payload. *)
Theorem ParseLine_payload_lines
    (F : Type) (float_zero : F) (stoi : list ascii -> option Z)
    (stod : list ascii -> option F) (stoll : list ascii -> option Z)
    (millis_of : F -> Z) (line : list ascii) :
  (2 <= length line)%nat ->
  char_at line 0 = "-"%char \/ char_at line 0 = "+"%char ->
  ((exists m, ParseLine F float_zero stoi stod stoll millis_of line = Some m) <->
   (exists eod payload, find line ";" 1 = Some eod /\
                        hex_bytes (substr line 1 (eod - 1)) = Some payload))
  /\
  (forall m, ParseLine F float_zero stoi stod stoll millis_of line = Some m ->
     (exists eod, find line ";" 1 = Some eod /\
                  hex_bytes (substr line 1 (eod - 1)) = Some (payload_ m)) /\
     let size := Z.of_nat (length (payload_ m)) in
     (size = 18 -> type_ m = DOWNLINK_SHORT) /\
     (size = 34 -> type_ m = DOWNLINK_LONG) /\
     (size = 432 -> type_ m = UPLINK) /\
     (size <> 18 -> size <> 34 -> size <> 432 -> type_ m = INVALID))
  /\
  (forall key value fields,
     ~ known_key key ->
     update_field F float_zero stoi stod stoll millis_of key value fields = fields)
  /\
  (forall p hex key value tail,
     line = p :: hex ++ ";"%char :: key ++ "="%char :: value ++ ";"%char :: tail ->
     ";"%char ∉ hex -> "="%char ∉ key -> ";"%char ∉ key -> ";"%char ∉ value ->
     ~ known_key key ->
     ParseLine F float_zero stoi stod stoll millis_of line =
     ParseLine F float_zero stoi stod stoll millis_of (p :: hex ++ ";"%char :: tail)).
Proof.
  intros Hlen Hprefix.
  destruct (ParseLine_accepts F float_zero stoi stod stoll millis_of line Hlen Hprefix)
    as [Hiff Hmsg].
  split; [exact Hiff|]. split; [|split].
  - intros m Hm. destruct (Hmsg m Hm) as [Hpayload Htype].
    split; [exact Hpayload|]. cbv zeta. rewrite Htype. unfold type_of_size. uat_constants.
    repeat split; intros;
      repeat match goal with
             | |- context [Z.eqb ?a ?b] => destruct (Z.eqb_spec a b)
             end; try reflexivity; lia.
  - intros key value fields. apply update_field_unknown.
  - intros p hex key value tail -> Hhex Heq Hsemi Hsemi' Hunknown.
    apply ParseLine_unknown_pair; assumption.
Qed.

Lemma ParseLine_payload_lines_witness :
  (exists m, ParseLine_plain (chars "-0a1B;who=me;rs=12;") = Some m) /\
  ParseLine_plain (chars "-0a1B;who=me;rs=12;") = ParseLine_plain (chars "-0a1B;rs=12;").
Proof.
  destruct (ParseLine_payload_lines unit tt plain_decimal (fun _ => None) plain_decimal
              (fun _ => 0) (chars "-0a1B;who=me;rs=12;")
              ltac:(simpl; lia) ltac:(left; reflexivity))
    as (Hiff & _ & _ & Hpair).
  split.
  - apply Hiff. exists 5%nat, [10; 27]. split; reflexivity.
  - apply (Hpair "-"%char (chars "0a1B") (chars "who") (chars "me") (chars "rs=12;"));
      clear Hiff Hpair; [reflexivity|..];
      cbv [chars list_ascii_of_string known_key];
      rewrite ?not_elem_of_cons; intuition (discriminate || (eapply not_elem_of_nil; eassumption)).
Defined.

(** C5 as stated fails: the line [-00;] carries a one-byte payload and
    is not rejected; the parser returns a message, of type INVALID. *)
Lemma ParseLine_accepts_one_byte :
  ParseLine_plain (chars "-00;") = Some (RawMessage_payload [0] 0 0 tt 0) /\
  type_ (RawMessage_payload [0] 0 0 tt 0) = INVALID /\
  Z.of_nat (length [0]) <> DOWNLINK_SHORT_DATA_BYTES /\
  Z.of_nat (length [0]) <> DOWNLINK_LONG_DATA_BYTES /\
  Z.of_nat (length [0]) <> UPLINK_DATA_BYTES.
Proof.
  split; [reflexivity|]. split; [reflexivity|]. uat_constants. simpl. lia.
Qed.

(** A basic downlink line is typed by its 18 bytes; the error count is
    read and the pair with the unknown key [x] leaves no trace. *)
Example ParseLine_basic_line :
  (fun m => (type_ m, length (payload_ m), errors_ m, received_at_ m, raw_timestamp_ m))
    <$> ParseLine_plain (chars "-000102030405060708090a0b0c0d0e0f1011;x=y;rs=3;") =
  Some (DOWNLINK_SHORT, 18%nat, 3, 0, 0).
Proof. reflexivity. Qed.

Example ParseLine_bad_lines :
  ParseLine_plain (chars "-0g;") = None /\
  ParseLine_plain (chars "-001;") = None /\
  ParseLine_plain (chars "-00") = None /\
  ParseLine_plain (chars "x00;") = None.
Proof. repeat split; reflexivity. Qed.

(** ** rs-common.h: modnn *)

(** One round of the reduction keeps the residue modulo [2^m - 1] and
    does not grow the value. *)
Lemma fold_residue m y :
  0 < m -> 0 <= y ->
  let y' := Z.shiftr y m + Z.land y (2 ^ m - 1) in
  0 <= y' <= y /\ y' mod (2 ^ m - 1) = y mod (2 ^ m - 1).
Proof.
  intros Hm Hy. cbv zeta.
  rewrite Z.shiftr_div_pow2 by lia.
  assert (Hland : Z.land y (2 ^ m - 1) = y mod 2 ^ m).
  { replace (2 ^ m - 1) with (Z.ones m) by (rewrite Z.ones_equiv; lia).
    apply Z.land_ones. lia. }
  rewrite Hland.
  assert (Hp : 2 <= 2 ^ m).
  { change 2 with (2 ^ 1) at 1. apply Z.pow_le_mono_r; lia. }
  pose proof (Z.div_mod y (2 ^ m) ltac:(lia)) as Hdm.
  pose proof (Z.mod_pos_bound y (2 ^ m) ltac:(lia)) as Hr.
  assert (Hq : 0 <= y / 2 ^ m) by (apply Z.div_pos; lia).
  assert (Hprod : 0 <= (2 ^ m - 1) * (y / 2 ^ m)) by (apply Z.mul_nonneg_nonneg; lia).
  split; [lia|].
  rewrite Hdm at 3.
  replace (2 ^ m * (y / 2 ^ m) + y mod 2 ^ m)
    with (y / 2 ^ m + y mod 2 ^ m + (y / 2 ^ m) * (2 ^ m - 1)) by lia.
  now rewrite Z.mod_add by lia.
Qed.

Lemma modnn_loop_spec rs :
  0 < rs_common.mm rs -> rs_common.nn rs = 2 ^ rs_common.mm rs - 1 ->
  forall fuel x,
    0 <= x -> (Z.to_nat x < fuel)%nat ->
    rs_common.modnn_loop fuel rs x = Some (x mod rs_common.nn rs).
Proof.
  intros Hm Hnn fuel.
  assert (Hp : 2 <= 2 ^ rs_common.mm rs).
  { change 2 with (2 ^ 1) at 1. apply Z.pow_le_mono_r; lia. }
  induction fuel as [|fuel IH]; intros x Hx Hfuel; [lia|].
  cbn [rs_common.modnn_loop].
  destruct (Z.geb_spec x (rs_common.nn rs)) as [Hge|Hlt].
  - cbv zeta.
    pose proof (fold_residue (rs_common.mm rs) (x - rs_common.nn rs) Hm ltac:(lia)) as Hfold.
    cbv zeta in Hfold. rewrite <- Hnn in Hfold. destruct Hfold as [Hle Hmod].
    rewrite IH by lia. f_equal. rewrite Hmod.
    replace (x - rs_common.nn rs) with (x + (-1) * rs_common.nn rs) by lia.
    apply Z.mod_add. lia.
  - f_equal. symmetry. apply Z.mod_small. lia.
Qed.

(** X1: for a control block with [nn = 2^mm - 1] the loop of [modnn]
    ends, and what it returns for a non-negative [x] is [x mod nn]; a
    negative [x] is returned as it is. *)
Theorem modnn_is_mod rs x :
  0 < rs_common.mm rs -> rs_common.nn rs = 2 ^ rs_common.mm rs - 1 ->
  rs_common.modnn rs x = Some (if x <? 0 then x else x mod rs_common.nn rs).
Proof.
  intros Hm Hnn. unfold rs_common.modnn.
  destruct (Z.ltb_spec x 0) as [Hneg|Hx].
  - assert (Hp : 2 <= 2 ^ rs_common.mm rs).
    { change 2 with (2 ^ 1) at 1. apply Z.pow_le_mono_r; lia. }
    replace (Z.to_nat x) with 0%nat by lia. cbn [rs_common.modnn_loop].
    destruct (Z.geb_spec x (rs_common.nn rs)); [lia|reflexivity].
  - apply modnn_loop_spec; try assumption. lia.
Qed.

Lemma modnn_is_mod_witness :
  rs_common.modnn rs_char_sizes 1000 = Some 235.
Proof.
  exact (modnn_is_mod rs_char_sizes 1000 ltac:(reflexivity) ltac:(reflexivity)).
Defined.

(** ** The bit slicer *)

Lemma lor_lt_pow2 a b n :
  0 <= n -> 0 <= a < 2 ^ n -> 0 <= b < 2 ^ n -> 0 <= Z.lor a b < 2 ^ n.
Proof.
  intros Hn Ha Hb.
  assert (Hnn : 0 <= Z.lor a b) by (apply Z.lor_nonneg; lia).
  split; [exact Hnn|].
  destruct (Z.eq_dec (Z.lor a b) 0) as [->|Hne]; [lia|].
  apply Z.log2_lt_pow2; [lia|].
  rewrite Z.log2_lor by lia.
  destruct (Z.eq_dec a 0) as [->|Ha0]; destruct (Z.eq_dec b 0) as [->|Hb0].
  - exfalso. apply Hne. reflexivity.
  - rewrite Z.max_r by (apply Z.log2_nonneg). apply Z.log2_lt_pow2; lia.
  - rewrite Z.max_l by (apply Z.log2_nonneg). apply Z.log2_lt_pow2; lia.
  - assert (Z.log2 a < n) by (apply Z.log2_lt_pow2; lia).
    assert (Z.log2 b < n) by (apply Z.log2_lt_pow2; lia). lia.
Qed.

Lemma testbit_ite (c : bool) m n :
  Z.testbit (if c then m else 0) n = c && Z.testbit m n.
Proof. destruct c; [reflexivity|apply Z.testbit_0_l]. Qed.

(** One test of the slicer: the mask is or-ed in when the step exceeds
    [one_slice], the flag raised when it lies between the two slices. *)
Lemma slice_bit_eq phase p mask zs os b e :
  slice_bit phase p mask zs os (b, e) =
  (Z.lor b (if PhaseDifference (phase_at phase p) (phase_at phase (p + 1)) >? os
            then mask else 0),
   e || (negb (PhaseDifference (phase_at phase p) (phase_at phase (p + 1)) >? os)
         && (PhaseDifference (phase_at phase p) (phase_at phase (p + 1)) >? zs))).
Proof.
  unfold slice_bit.
  destruct (_ >? os); simpl.
  - now rewrite orb_false_r.
  - rewrite Z.lor_0_r. destruct (_ >? zs); [now rewrite orb_true_r|now rewrite orb_false_r].
Qed.

Lemma slice_byte_spec phase base zs os i :
  let r := slice_byte phase (base + 16 * i) zs os in
  0 <= r.1 < 256 /\
  (forall k, 0 <= k < 8 -> Z.testbit r.1 (7 - k) = (bit_step phase base i k >? os)) /\
  (r.2 = true <-> undecided phase base zs os i).
Proof.
  cbv zeta. unfold slice_byte. rewrite !slice_bit_eq. cbn [fst snd].
  set (q := base + 16 * i).
  assert (Hstep : forall k, bit_step phase base i k =
            PhaseDifference (phase_at phase (q + 2 * k)) (phase_at phase (q + 2 * k + 1)))
    by reflexivity.
  pose proof (Hstep 0) as H0. replace (q + 2 * 0) with q in H0 by lia.
  pose proof (Hstep 1) as H1. change (2 * 1) with 2 in H1.
  pose proof (Hstep 2) as H2. change (2 * 2) with 4 in H2.
  pose proof (Hstep 3) as H3. change (2 * 3) with 6 in H3.
  pose proof (Hstep 4) as H4. change (2 * 4) with 8 in H4.
  pose proof (Hstep 5) as H5. change (2 * 5) with 10 in H5.
  pose proof (Hstep 6) as H6. change (2 * 6) with 12 in H6.
  pose proof (Hstep 7) as H7. change (2 * 7) with 14 in H7.
  rewrite <- H0, <- H1, <- H2, <- H3, <- H4, <- H5, <- H6, <- H7.
  clear Hstep H0 H1 H2 H3 H4 H5 H6 H7. unfold undecided.
  generalize (bit_step phase base i). intros d.
  split; [|split].
  - repeat (apply (lor_lt_pow2 _ _ 8); [lia| |destruct (_ >? os); lia]). lia.
  - intros k Hk.
    assert (Hcases : k = 0 \/ k = 1 \/ k = 2 \/ k = 3 \/ k = 4 \/ k = 5 \/ k = 6 \/ k = 7) by lia.
    rewrite !Z.lor_spec, !testbit_ite, Z.testbit_0_l.
    destruct Hcases as [->|[->|[->|[->|[->|[->|[->| ->]]]]]]]; cbn;
      rewrite ?andb_false_r, ?andb_true_r, ?orb_false_r, ?orb_false_l; reflexivity.
  - cbn [orb]. split.
    + intros Hflag.
      repeat match type of Hflag with
             | (_ || _) = true => apply orb_true_iff in Hflag as [Hflag|Hflag]
             end;
        apply andb_true_iff in Hflag as [Hle Hgt];
        apply negb_true_iff in Hle;
        match type of Hgt with
        | (d ?k >? zs) = true => exists k
        end; lia.
    + intros (k & Hk & Hle & Hgt).
      assert (Hflag : negb (d k >? os) && (d k >? zs) = true).
      { apply andb_true_iff. split; [apply negb_true_iff|]; lia. }
      assert (Hcases : k = 0 \/ k = 1 \/ k = 2 \/ k = 3 \/ k = 4 \/ k = 5 \/ k = 6 \/ k = 7) by lia.
      destruct Hcases as [->|[->|[->|[->|[->|[->|[->| ->]]]]]]]; rewrite Hflag;
        rewrite ?orb_true_r; reflexivity.
Qed.

(** The byte loop in list form: byte [j] is sliced at [base + 16 * j],
    and the flagged byte numbers are collected in order. *)
Lemma DemodBits_loop_spec phase base zs os : forall todo i result erasures,
  DemodBits_loop phase todo i (base + 16 * i) zs os result erasures =
  (result ++ map (fun j => (slice_byte phase (base + 16 * j) zs os).1)
               (seqZ i (Z.of_nat todo)),
   erasures ++ filter (fun j => (slice_byte phase (base + 16 * j) zs os).2 = true)
                 (seqZ i (Z.of_nat todo))).
Proof.
  induction todo as [|todo IH]; intros i result erasures.
  - simpl. now rewrite !app_nil_r.
  - cbn [DemodBits_loop].
    rewrite (seqZ_cons i (Z.of_nat (S todo))) by lia.
    replace (Z.succ i) with (i + 1) by lia.
    replace (Z.pred (Z.of_nat (S todo))) with (Z.of_nat todo) by lia.
    rewrite filter_cons. cbn [map].
    destruct (slice_byte phase (base + 16 * i) zs os) as [b erasure] eqn:Hbyte.
    replace (base + 16 * i + 16) with (base + 16 * (i + 1)) by lia.
    rewrite IH. cbn [fst snd]. rewrite <- !app_assoc. cbn [app].
    destruct erasure.
    + rewrite decide_True by reflexivity. now rewrite <- app_assoc.
    + rewrite decide_False by discriminate. reflexivity.
Qed.

Lemma DemodBits_spec phase p bytes zs os :
  DemodBits phase p bytes zs os =
  (map (fun j => (slice_byte phase (p + 16 * j) zs os).1) (seqZ 0 bytes),
   filter (fun j => (slice_byte phase (p + 16 * j) zs os).2 = true) (seqZ 0 bytes)).
Proof.
  unfold DemodBits.
  replace p with (p + 16 * 0) at 1 by lia.
  rewrite DemodBits_loop_spec. cbn [app].
  destruct (Z.le_gt_cases 0 bytes) as [Hb|Hb].
  - now rewrite Z2Nat.id by lia.
  - replace (Z.to_nat bytes) with 0%nat by lia.
    now rewrite (seqZ_nil 0 bytes) by lia.
Qed.

(** X2: the slicer returns [bytes] bytes, each below 256; the erasure
    list is a sublist of [0; 1; ...; bytes - 1], that is, distinct byte
    numbers of the run in increasing order. *)
Theorem DemodBits_shape phase p bytes zero_slice one_slice :
  let r := DemodBits phase p bytes zero_slice one_slice in
  length r.1 = Z.to_nat bytes /\
  Forall (fun b => 0 <= b < 256) r.1 /\
  r.2 `sublist_of` seqZ 0 bytes.
Proof.
  cbv zeta. rewrite DemodBits_spec. cbn [fst snd]. split; [|split].
  - now rewrite length_map, length_seqZ.
  - apply Forall_map. apply Forall_forall. intros j _.
    apply (slice_byte_spec phase p zero_slice one_slice j).
  - apply sublist_filter.
Qed.

(** X3: what the slicer puts where.  Bit [7 - k] of byte [i] is set
    exactly when step [k] of that byte exceeds [one_slice] (the first
    bit sent is the most significant), and byte [i] is among the
    erasures exactly when one of its steps lies above [zero_slice]
    without exceeding [one_slice]. *)
Theorem DemodBits_bits phase p bytes zero_slice one_slice i :
  0 <= i < bytes ->
  let r := DemodBits phase p bytes zero_slice one_slice in
  (forall k, 0 <= k < 8 ->
     Z.testbit (at_index r.1 i) (7 - k) = (bit_step phase p i k >? one_slice)) /\
  (i ∈ r.2 <-> undecided phase p zero_slice one_slice i).
Proof.
  intros Hi. cbv zeta. rewrite DemodBits_spec. cbn [fst snd].
  destruct (slice_byte_spec phase p zero_slice one_slice i) as (_ & Hbits & Hflag).
  split.
  - intros k Hk. unfold at_index.
    rewrite list_lookup_fmap, lookup_seqZ_lt by lia. simpl.
    rewrite Z2Nat.id by lia. now apply Hbits.
  - rewrite list_elem_of_filter, elem_of_seqZ. rewrite Hflag. intuition lia.
Qed.

(** One byte sliced at threshold 0 from the bits 10110001. *)
Example DemodBits_one_byte :
  DemodBits (phase_of_bits [true; false; true; true; false; false; false; true]) 0 1 0 0
  = ([177], []).
Proof. reflexivity. Qed.

Lemma DemodBits_bits_witness :
  let phase := phase_of_bits [true; false; true; true; false; false; false; true] in
  (forall k, 0 <= k < 8 ->
     Z.testbit (at_index (DemodBits phase 0 1 0 0).1 0) (7 - k) = (bit_step phase 0 0 k >? 0)) /\
  (0 ∈ (DemodBits phase 0 1 0 0).2 <-> undecided phase 0 0 0 0).
Proof.
  exact (DemodBits_bits (phase_of_bits [true; false; true; true; false; false; false; true])
           0 1 0 0 0 ltac:(lia)).
Defined.

Lemma uplink_blocks_no_erasures decode_rs_char raw :
  forall todo block total corrected blockdata,
    Forall (fun c => call_eras c = [])
      (uplink_blocks decode_rs_char raw [] todo block total corrected blockdata).2.
Proof.
  induction todo as [|todo IH]; intros block total corrected blockdata; [constructor|].
  cbn [uplink_blocks collect_block_erasures]. unfold call_decoder, tbind, tret.
  destruct (_ >? _); [constructor|]. cbn [Z.to_nat take].
  destruct (_ || _); [repeat constructor|].
  match goal with
  | |- context [uplink_blocks ?d ?r ?e ?t ?b ?tot ?c ?bd] =>
      specialize (IH b tot c bd); destruct (uplink_blocks d r e t b tot c bd) as [res calls]
  end.
  constructor; [reflexivity|exact IH].
Qed.

(** X4: equal thresholds leave no room between them, so the slicer
    flags no byte; both frame demodulators call it that way, and the
    FEC front end is always handed an empty erasure list: none of its
    decoder calls carries an erasure. *)
Theorem DemodBits_no_erasures decode_rs_char phase p bytes slice :
  (DemodBits phase p bytes slice slice).2 = [] /\
  Forall (fun c => call_eras c = [])
    (CorrectDownlink decode_rs_char (DemodBits phase p bytes slice slice).1
       (DemodBits phase p bytes slice slice).2).2 /\
  Forall (fun c => call_eras c = [])
    (CorrectUplink decode_rs_char (DemodBits phase p bytes slice slice).1
       (DemodBits phase p bytes slice slice).2).2.
Proof.
  assert (Hnone : (DemodBits phase p bytes slice slice).2 = []).
  { rewrite DemodBits_spec. cbn [snd].
    induction (seqZ 0 bytes) as [|j rest IH]; [reflexivity|].
    rewrite filter_cons.
    destruct (slice_byte_spec phase p slice slice j) as (_ & _ & Hflag).
    rewrite decide_False; [exact IH|].
    intros Hj. apply Hflag in Hj as (k & _ & Hle & Hgt). lia. }
  split; [exact Hnone|]. rewrite Hnone.
  generalize (DemodBits phase p bytes slice slice).1. intros raw. split.
  - unfold CorrectDownlink, call_decoder, tbind, tret.
    destruct (negb _); [constructor|].
    destruct (_ >? _); [constructor|].
    cbn [mark_long_erasures length Z.of_nat Z.to_nat take collect_short_erasures].
    repeat match goal with
           | |- context [if ?c then _ else _] => destruct c
           end; repeat constructor.
  - unfold CorrectUplink.
    destruct (negb _); [constructor|]. apply uplink_blocks_no_erasures.
Qed.
(** ** Outcomes of the FEC front end *)

Lemma at_index_vec_resize_0 n v : (0 < n)%nat -> at_index (vec_resize n v) 0 = at_index v 0.
Proof.
  intros Hn. unfold at_index, vec_resize. change (Z.to_nat 0) with 0%nat.
  destruct v as [|b v].
  - rewrite take_nil. destruct n; [lia|]. reflexivity.
  - destruct n; [lia|]. reflexivity.
Qed.

(** The two ways out of [CorrectDownlink]. *)
Lemma CorrectDownlink_cases decode_rs_char raw erasures :
  (CorrectDownlink decode_rs_char raw erasures).1 = fec_failed \/
  exists corrected errors,
    (CorrectDownlink decode_rs_char raw erasures).1 = (true, corrected, errors) /\
    Z.of_nat (length raw) = DOWNLINK_LONG_BYTES /\
    Z.of_nat (length erasures) <= fec.DOWNLINK_LONG_ROOTS /\
    ((Z.of_nat (length corrected) = DOWNLINK_LONG_DATA_BYTES /\
      header_type corrected <> 0 /\ 0 <= errors <= fec.DOWNLINK_LONG_ROOTS) \/
     (Z.of_nat (length corrected) = DOWNLINK_SHORT_DATA_BYTES /\
      header_type corrected = 0 /\ 0 <= errors <= fec.DOWNLINK_SHORT_ROOTS)).
Proof.
  unfold CorrectDownlink, call_decoder, tbind, tret.
  destruct (Z.eqb_spec (Z.of_nat (length raw)) DOWNLINK_LONG_BYTES) as [Hraw|];
    cbn [negb]; [|now left].
  destruct (Z.gtb_spec (Z.of_nat (length erasures)) fec.DOWNLINK_LONG_ROOTS) as [|Hfew];
    [now left|].
  destruct (mark_long_erasures _ _ _ _) as [arr cor].
  set (long := decode_rs_char rs_downlink_long_ cor _).
  destruct ((0 <=? n_corrected long) && _ && _) eqn:Hlong.
  { apply andb_true_iff in Hlong as [Hlong Hhdr].
    apply andb_true_iff in Hlong as [Hn0 Hn1].
    apply negb_true_iff, Z.eqb_neq in Hhdr. apply Z.leb_le in Hn0, Hn1.
    right. eexists. eexists. split; [reflexivity|].
    split; [exact Hraw|]. split; [exact Hfew|]. left.
    rewrite vec_resize_length. unfold header_type.
    rewrite at_index_vec_resize_0 by (vm_compute; lia).
    split; [reflexivity|]. split; [exact Hhdr|lia]. }
  destruct (collect_short_erasures _ _ _) as [arr2 count].
  destruct (_ >? _); [now left|].
  set (short := decode_rs_char rs_downlink_short_ (data_out long) _).
  destruct ((0 <=? n_corrected short) && _ && _) eqn:Hshort; [|now left].
  apply andb_true_iff in Hshort as [Hshort Hhdr].
  apply andb_true_iff in Hshort as [Hn0 Hn1].
  apply Z.eqb_eq in Hhdr. apply Z.leb_le in Hn0, Hn1.
  right. eexists. eexists. split; [reflexivity|].
  split; [exact Hraw|]. split; [exact Hfew|]. right.
  rewrite vec_resize_length. unfold header_type.
  rewrite at_index_vec_resize_0 by (vm_compute; lia).
  split; [reflexivity|]. split; [exact Hhdr|lia].
Qed.

(** X5: whatever the decoder does, [CorrectDownlink] either reports the
    failure tuple (false, empty payload, 0 errors) or accepts a 48-byte
    frame with at most 14 erasures, and then the payload it returns
    agrees with its own header: 34 bytes with a non-zero type code and
    at most 14 corrections, or 18 bytes with type code 0 and at most 12
    corrections. *)
Theorem CorrectDownlink_outcomes decode_rs_char raw erasures :
  (CorrectDownlink decode_rs_char raw erasures).1 = fec_failed \/
  exists corrected errors,
    (CorrectDownlink decode_rs_char raw erasures).1 = (true, corrected, errors) /\
    Z.of_nat (length raw) = DOWNLINK_LONG_BYTES /\
    Z.of_nat (length erasures) <= fec.DOWNLINK_LONG_ROOTS /\
    ((Z.of_nat (length corrected) = DOWNLINK_LONG_DATA_BYTES /\
      header_type corrected <> 0 /\ 0 <= errors <= fec.DOWNLINK_LONG_ROOTS) \/
     (Z.of_nat (length corrected) = DOWNLINK_SHORT_DATA_BYTES /\
      header_type corrected = 0 /\ 0 <= errors <= fec.DOWNLINK_SHORT_ROOTS)).
Proof. apply CorrectDownlink_cases. Qed.

(** The uplink loop only adds counts between 0 and 20. *)
Lemma uplink_blocks_errors decode_rs_char raw erasures :
  forall todo block total corrected blockdata result errors,
    0 <= total -> total + fec.UPLINK_BLOCK_ROOTS * Z.of_nat todo < 2 ^ 32 ->
    (uplink_blocks decode_rs_char raw erasures todo block total corrected blockdata).1
      = (true, result, errors) ->
    total <= errors <= total + fec.UPLINK_BLOCK_ROOTS * Z.of_nat todo.
Proof.
  induction todo as [|todo IH]; intros block total corrected blockdata result errors Ht Hfit.
  - simpl. intros [= _ <-]. lia.
  - cbn [uplink_blocks]. unfold call_decoder, tbind, tret.
    destruct (collect_block_erasures _ _ _ _) as [arr count].
    destruct (_ >? _); [discriminate|].
    set (r := decode_rs_char rs_uplink_ _ _).
    destruct (Z.ltb_spec (n_corrected r) 0) as [|Hn0]; [discriminate|].
    destruct (Z.gtb_spec (n_corrected r) fec.UPLINK_BLOCK_ROOTS) as [|Hn1]; [discriminate|].
    cbn [orb].
    rewrite to_uint32_small by (uat_constants; lia).
    match goal with
    | |- context [uplink_blocks ?d ?rw ?e ?t ?b ?tot ?c ?bd] =>
        specialize (IH b tot c bd result errors);
        destruct (uplink_blocks d rw e t b tot c bd) as [res calls]
    end.
    cbn [fst]. intros Hres. specialize (IH ltac:(lia) ltac:(uat_constants; lia) Hres).
    uat_constants. lia.
Qed.

(** A run of the uplink loop that does not succeed reports the failure
    tuple. *)
Lemma uplink_blocks_failure decode_rs_char raw erasures :
  forall todo block total corrected blockdata result errors,
    (uplink_blocks decode_rs_char raw erasures todo block total corrected blockdata).1
      = (false, result, errors) ->
    result = [] /\ errors = 0.
Proof.
  induction todo as [|todo IH]; intros block total corrected blockdata result errors.
  - discriminate.
  - cbn [uplink_blocks]. unfold call_decoder, tbind, tret.
    destruct (collect_block_erasures _ _ _ _) as [arr count].
    destruct (_ >? _); [intros [= <- <-]; now split|].
    destruct (_ || _); [intros [= <- <-]; now split|].
    match goal with
    | |- context [uplink_blocks ?d ?rw ?e ?t ?b ?tot ?c ?bd] =>
        specialize (IH b tot c bd result errors);
        destruct (uplink_blocks d rw e t b tot c bd) as [res calls]
    end.
    exact IH.
Qed.

Lemma CorrectUplink_errors decode_rs_char raw erasures result errors :
  (CorrectUplink decode_rs_char raw erasures).1 = (true, result, errors) ->
  0 <= errors <= 120.
Proof.
  unfold CorrectUplink. destruct (negb _); [discriminate|]. intros Hres.
  assert (Hfit : 0 + fec.UPLINK_BLOCK_ROOTS * Z.of_nat (Z.to_nat UPLINK_BLOCKS_PER_FRAME) < 2 ^ 32)
    by (vm_compute; reflexivity).
  apply uplink_blocks_errors in Hres; [|lia|exact Hfit].
  change (0 + fec.UPLINK_BLOCK_ROOTS * Z.of_nat (Z.to_nat UPLINK_BLOCKS_PER_FRAME))
    with 120 in Hres.
  exact Hres.
Qed.

Section OutcomeTheorems.
Variable decode_rs_char : rs_decoder.
Hypothesis decode_length : forall code data eras,
  length (data_out (decode_rs_char code data eras)) = length data.
Hypothesis decode_bound : forall code data eras,
  n_corrected (decode_rs_char code data eras) <= rs_nroots code.

(** X6: [CorrectUplink] either reports the failure tuple or accepts a
    552-byte frame, and then returns 432 bytes with between 0 and 120
    corrections. *)
Theorem CorrectUplink_outcomes raw erasures :
  (CorrectUplink decode_rs_char raw erasures).1 = fec_failed \/
  exists corrected errors,
    (CorrectUplink decode_rs_char raw erasures).1 = (true, corrected, errors) /\
    Z.of_nat (length raw) = UPLINK_BYTES /\
    Z.of_nat (length corrected) = UPLINK_DATA_BYTES /\
    0 <= errors <= fec.UPLINK_BLOCK_ROOTS * UPLINK_BLOCKS_PER_FRAME.
Proof.
  destruct (CorrectUplink decode_rs_char raw erasures).1 as [[success corrected] errors] eqn:Hres.
  destruct success.
  - right. exists corrected, errors. split; [reflexivity|].
    pose proof (CorrectUplink_payload_size decode_rs_char decode_length decode_bound
                  raw erasures corrected errors Hres) as Hsize.
    assert (Hraw : Z.of_nat (length raw) = UPLINK_BYTES).
    { unfold CorrectUplink in Hres.
      destruct (Z.eqb_spec (Z.of_nat (length raw)) UPLINK_BYTES) as [Hraw|];
        [exact Hraw|discriminate]. }
    apply CorrectUplink_errors in Hres.
    split; [exact Hraw|]. split; [exact Hsize|]. exact Hres.
  - left. unfold CorrectUplink in Hres.
    destruct (negb _); [symmetry; exact Hres|].
    apply uplink_blocks_failure in Hres as [-> ->]. reflexivity.
Qed.
End OutcomeTheorems.

Lemma CorrectUplink_outcomes_witness :
  (CorrectUplink check_only_decoder (replicate 552 0) []).1 = fec_failed \/
  exists corrected errors,
    (CorrectUplink check_only_decoder (replicate 552 0) []).1 = (true, corrected, errors) /\
    Z.of_nat (length (replicate 552 0)) = UPLINK_BYTES /\
    Z.of_nat (length corrected) = UPLINK_DATA_BYTES /\
    0 <= errors <= fec.UPLINK_BLOCK_ROOTS * UPLINK_BLOCKS_PER_FRAME.
Proof.
  exact (CorrectUplink_outcomes check_only_decoder check_only_decoder_length
           check_only_decoder_bound (replicate 552 0) []).
Defined.

(** ** Choosing between the two alignments *)

Lemma DemodOneDownlink_result decode_rs_char phase start m :
  DemodOneDownlink decode_rs_char phase start = Some m ->
  message_begin m = start /\ 0 <= corrected_errors m <= 14 /\
  552 <= message_end m - message_begin m <= 840.
Proof.
  unfold DemodOneDownlink.
  destruct (DemodBits _ _ _ _ _) as [raw erasures].
  destruct (CorrectDownlink_cases decode_rs_char raw erasures)
    as [Hfail|(corrected & errors & Hres & _ & _ & Hcases)].
  - rewrite Hfail. discriminate.
  - rewrite Hres. cbn [negb]. intros [= <-]. cbn.
    split; [reflexivity|].
    destruct (_ =? _); uat_constants; lia.
Qed.

Lemma DemodOneUplink_result decode_rs_char phase start m :
  DemodOneUplink decode_rs_char phase start = Some m ->
  message_begin m = start /\ 0 <= corrected_errors m <= 120 /\
  message_end m - message_begin m = 8904.
Proof.
  unfold DemodOneUplink.
  destruct (DemodBits _ _ _ _ _) as [raw erasures].
  destruct (CorrectUplink decode_rs_char raw erasures).1 as [[success corrected] errors] eqn:Hres.
  destruct success; cbn [negb]; [|discriminate].
  intros [= <-]. cbn. split; [reflexivity|].
  apply CorrectUplink_errors in Hres. uat_constants. lia.
Qed.

Lemma DemodOne_result decode_rs_char phase downlink start m :
  DemodOne decode_rs_char phase downlink start = Some m ->
  message_begin m = start /\ 0 <= corrected_errors m <= 120 /\
  552 <= message_end m - message_begin m <= 8904.
Proof.
  unfold DemodOne. destruct downlink; intros Hm.
  - apply DemodOneDownlink_result in Hm. lia.
  - apply DemodOneUplink_result in Hm. lia.
Qed.

Lemma DemodBest_cases decode_rs_char phase start downlink :
  DemodBest decode_rs_char phase start downlink =
  match DemodOne decode_rs_char phase downlink start,
        DemodOne decode_rs_char phase downlink (start + 1) with
  | Some m0, Some m1 =>
      if corrected_errors m0 <=? corrected_errors m1 then Some m0 else Some m1
  | Some m0, None => Some m0
  | None, Some m1 => Some m1
  | None, None => None
  end.
Proof.
  unfold DemodBest. fold (DemodOne decode_rs_char phase downlink start).
  fold (DemodOne decode_rs_char phase downlink (start + 1)).
  pose proof (DemodOne_result decode_rs_char phase downlink start) as H0.
  pose proof (DemodOne_result decode_rs_char phase downlink (start + 1)) as H1.
  destruct (DemodOne decode_rs_char phase downlink start) as [m0|];
    destruct (DemodOne decode_rs_char phase downlink (start + 1)) as [m1|]; cbn.
  - now destruct (_ <=? _).
  - specialize (H0 m0 eq_refl). destruct (Z.leb_spec (corrected_errors m0) 9999); [reflexivity|lia].
  - specialize (H1 m1 eq_refl). destruct (Z.leb_spec 9999 (corrected_errors m1)); [lia|reflexivity].
  - reflexivity.
Qed.

(** X7: [DemodBest] returns no message only when neither alignment
    decodes; when one does it returns that one, and when both do it
    returns the one with fewer corrections, the first on a tie.  The
    stand-in count 9999 of a missing candidate never wins, since a
    decoded frame has at most 120 corrections. *)
Theorem DemodBest_fewest_errors decode_rs_char phase start downlink :
  DemodBest decode_rs_char phase start downlink =
  match DemodOne decode_rs_char phase downlink start,
        DemodOne decode_rs_char phase downlink (start + 1) with
  | Some m0, Some m1 =>
      if corrected_errors m0 <=? corrected_errors m1 then Some m0 else Some m1
  | Some m0, None => Some m0
  | None, Some m1 => Some m1
  | None, None => None
  end.
Proof. apply DemodBest_cases. Qed.

(** ** Order of the frames *)

Lemma find_frame_range decode_rs_char phase probe sync0 sync1 m :
  find_frame decode_rs_char phase probe sync0 sync1 = Some m ->
  probe - 70 <= message_begin m <= probe - 68 /\
  552 <= message_end m - message_begin m <= 8904 /\
  0 <= corrected_errors m <= 120.
Proof.
  unfold find_frame, try_sync.
  repeat match goal with
         | |- context [SyncWordMatch ?a ?b] => destruct (SyncWordMatch a b)
         | |- context [DemodBest ?d ?p ?s ?dl] =>
             rewrite (DemodBest_cases d p s dl);
             let H0 := fresh "H0" in
             let H1 := fresh "H1" in
             pose proof (DemodOne_result d p dl s) as H0;
             pose proof (DemodOne_result d p dl (s + 1)) as H1;
             destruct (DemodOne d p dl s); destruct (DemodOne d p dl (s + 1))
         | |- context [if ?a <=? ?b then _ else _] => destruct (a <=? b)
         end;
    try discriminate; intros [= <-];
    repeat match goal with
           | H : forall m0, Some ?m = Some m0 -> _ |- _ => specialize (H m eq_refl)
           end;
    uat_constants; lia.
Qed.

Lemma Demodulate_loop_ordered decode_rs_char phase limit :
  forall fuel probe sync_bits sync0 sync1 messages,
    (0 < fuel)%nat ->
    limit - probe < Z.of_nat fuel ->
    0 <= sync_bits ->
    frames_ordered messages ->
    Forall (fun m => message_begin m < message_end m /\
                     message_end m + 2 * sync_bits <= probe) messages ->
    exists result,
      Demodulate_loop decode_rs_char phase fuel probe limit sync_bits sync0 sync1 messages
      = Some result /\
      frames_ordered result /\
      Forall (fun m => message_begin m < message_end m) result.
Proof.
  intros fuel. induction fuel as [|fuel IH];
    intros probe sync_bits sync0 sync1 messages Hfuel Hmeasure Hbits Hord Hacc; [lia|].
  cbn [Demodulate_loop].
  destruct (Z.ltb_spec probe limit) as [Hin|Hout]; cbn [negb].
  2:{ exists messages. split; [reflexivity|]. split; [exact Hord|].
      eapply Forall_impl; [exact Hacc|]. simpl. intros m Hm. lia. }
  pose proof (to_uint32_step sync_bits Hbits) as Hstep.
  set (bits' := to_uint32 (sync_bits + 1)) in *.
  set (s0 := push_sync_bit sync0 _). set (s1 := push_sync_bit sync1 _).
  destruct (Z.ltb_spec bits' SYNC_BITS) as [Hfew|Hfull].
  { apply IH; try lia; try assumption.
    eapply Forall_impl; [exact Hacc|]. simpl. intros m Hm. lia. }
  pose proof (find_frame_range decode_rs_char phase probe s0 s1) as Hframe.
  destruct (find_frame decode_rs_char phase probe s0 s1) as [m|].
  - destruct (Hframe m eq_refl) as (Hbegin & Hlen & _).
    replace (message_end m - 2 + 2) with (message_end m) by lia.
    uat_constants.
    apply IH; try lia.
    + apply StronglySorted_app_2; [|exact Hord|repeat constructor].
      intros a b Ha Hb. apply list_elem_of_singleton in Hb as ->.
      rewrite Forall_forall in Hacc. specialize (Hacc a Ha). lia.
    + apply Forall_app. split.
      * eapply Forall_impl; [exact Hacc|]. simpl. intros a Ha. lia.
      * repeat constructor; lia.
  - apply IH; try lia; try assumption.
    eapply Forall_impl; [exact Hacc|]. simpl. intros a Ha. lia.
Qed.



(** X8: [Demodulate] returns its frames in buffer order and without
    overlap: every frame ends at or before the sample where any later
    frame of the list begins, and each covers at least one sample. *)
Theorem Demodulate_frames_ordered decode_rs_char phase begin end_ :
  exists messages,
    Demodulate decode_rs_char phase begin end_ = Some messages /\
    frames_ordered messages /\
    Forall (fun m => message_begin m < message_end m) messages.
Proof.
  unfold Demodulate.
  destruct (Z.ltb_spec (end_ - begin) ((SYNC_BITS + UPLINK_BITS) * 2)) as [Hshort|Hlong].
  { exists []. split; [reflexivity|]. split; constructor. }
  apply Demodulate_loop_ordered; try lia; constructor.
Qed.
(** ** The receiver: messages, staging and the saved tail *)

Section ReceiverRun.
Variable decode_rs_char : rs_decoder.
Hypothesis decode_length : forall code data eras,
  length (data_out (decode_rs_char code data eras)) = length data.
Hypothesis decode_bound : forall code data eras,
  n_corrected (decode_rs_char code data eras) <= rs_nroots code.
Variable double : Type.
Variable BytesPerSample : Z.
Variable ConvertPhase : list Z -> list Z.
Variable ConvertMagSq : list Z -> list double.
Variable rssi_of_magsq : list double -> double.

Local Abbreviation receive :=
  (HandleSamples decode_rs_char double BytesPerSample ConvertPhase ConvertMagSq rssi_of_magsq).
Local Abbreviation received_frames := (demodulated decode_rs_char BytesPerSample ConvertPhase).
Local Abbreviation call_total := (total_samples BytesPerSample).
Local Abbreviation call_staged := (staged_samples BytesPerSample).
Local Abbreviation receive_all :=
  (HandleChunks decode_rs_char double BytesPerSample ConvertPhase ConvertMagSq rssi_of_magsq).




(** X10: a call whose chunk holds whole samples works on the saved tail
    followed by the chunk: these bytes, in this order, are the first
    [total_samples] samples of [samples_] when the phase conversion
    reads them. *)
Theorem staged_samples_data rx buffer :
  0 < BytesPerSample -> 0 <= saved_samples_ rx ->
  saved_samples_ rx * BytesPerSample <= Z.of_nat (length (samples_ rx)) ->
  Z.of_nat (length buffer) mod BytesPerSample = 0 ->
  take (Z.to_nat (call_total rx buffer * BytesPerSample)) (call_staged rx buffer) =
  take (Z.to_nat (saved_samples_ rx * BytesPerSample)) (samples_ rx) ++ buffer /\
  Z.of_nat (length (call_input BytesPerSample rx buffer)) = call_total rx buffer * BytesPerSample.
Proof.
  intros Hbps Hsaved Hinside Hwhole. split.
  - now apply staged_samples_prefix.
  - pose proof (total_bytes_split BytesPerSample rx buffer Hbps Hwhole) as Hsplit.
    assert (0 <= saved_samples_ rx * BytesPerSample) by nia.
    unfold call_input. rewrite length_app, length_take. lia.
Qed.

(** *** A run of calls *)

Lemma HandleChunks_run chunks : forall rx,
  0 < BytesPerSample -> receiver_ok BytesPerSample rx ->
  Forall (fun c : Z * list Z => Z.of_nat (length c.2) mod BytesPerSample = 0) chunks ->
  exists rx' out, receive_all rx chunks = Some (rx', out) /\ receiver_ok BytesPerSample rx'.
Proof.
  induction chunks as [|[timestamp buffer] rest IH]; intros rx Hbps Hok Hwhole.
  - exists rx, []. split; [reflexivity|exact Hok].
  - apply Forall_cons in Hwhole as [Hbuf Hrest]. cbn [HandleChunks].
    destruct (HandleSamples_returns decode_rs_char decode_length decode_bound double
                BytesPerSample ConvertPhase ConvertMagSq rssi_of_magsq rx timestamp buffer)
      as (rx1 & out1 & Hrun).
    rewrite Hrun.
    assert (Hok1 : receiver_ok BytesPerSample rx1)
      by (eapply HandleSamples_ok; [exact Hbps|exact Hok|exact Hbuf|exact Hrun]).
    destruct (IH rx1 Hbps Hok1 Hrest) as (rx2 & out2 & Hrun2 & Hok2).
    rewrite Hrun2. exists rx2, (out1 ++ out2). split; [reflexivity|exact Hok2].
Qed.

(** X12: a receiver that has seen no samples yet can be fed any run of
    chunks of whole samples: every call returns, and after the last one
    the saved samples still number at most 8904 and lie inside
    [samples_], which is what the next call's copy relies on. *)
Theorem HandleChunks_keeps_receiver_ok chunks :
  0 < BytesPerSample ->
  Forall (fun c : Z * list Z => Z.of_nat (length c.2) mod BytesPerSample = 0) chunks ->
  exists rx' out,
    receive_all fresh_receiver chunks = Some (rx', out) /\
    0 <= saved_samples_ rx' <= 8904 /\
    saved_samples_ rx' * BytesPerSample <= Z.of_nat (length (samples_ rx')).
Proof.
  intros Hbps Hwhole.
  destruct (HandleChunks_run chunks fresh_receiver Hbps) as (rx' & out & Hrun & Hok);
    [|exact Hwhole|].
  - unfold receiver_ok. change NumTrailingSamples with 8904. cbn. lia.
  - exists rx', out. split; [exact Hrun|exact Hok].
Qed.
End ReceiverRun.

(** *** The receiver on concrete chunks *)


(** A receiver holding the two samples 1 and 2, handed the samples 3 and
    4 with a chunk timestamp of 7. *)
Definition two_saved_samples : Receiver :=
  {| samples_ := ramp_chunk 1 2; saved_samples_ := 2; phase_ := [] |}.

Lemma staged_samples_data_witness :
  take (Z.to_nat (total_samples 2 two_saved_samples (ramp_chunk 3 2) * 2))
    (staged_samples 2 two_saved_samples (ramp_chunk 3 2)) =
  take (Z.to_nat (saved_samples_ two_saved_samples * 2)) (samples_ two_saved_samples)
    ++ ramp_chunk 3 2 /\
  Z.of_nat (length (call_input 2 two_saved_samples (ramp_chunk 3 2))) =
  total_samples 2 two_saved_samples (ramp_chunk 3 2) * 2.
Proof.
  exact (staged_samples_data 2 two_saved_samples (ramp_chunk 3 2)
           ltac:(lia) ltac:(vm_compute; congruence) ltac:(vm_compute; congruence)
           ltac:(reflexivity)).
Defined.

Example staged_samples_two_and_two :
  phase_of_le16 (staged_samples 2 two_saved_samples (ramp_chunk 3 2)) = [1; 2; 3; 4].
Proof. reflexivity. Qed.

Lemma HandleSamples_keeps_last_samples_witness :
  exists rx' out,
    HandleSamples_le16 two_saved_samples 7 (ramp_chunk 3 2) = Some (rx', out) /\
    saved_samples_ rx' = Z.min (total_samples 2 two_saved_samples (ramp_chunk 3 2))
                               NumTrailingSamples /\
    saved_data 2 rx' =
    last_n (Z.to_nat (saved_samples_ rx' * 2)) (call_input 2 two_saved_samples (ramp_chunk 3 2)).
Proof.
  destruct (HandleSamples_returns check_only_decoder check_only_decoder_length
              check_only_decoder_bound unit 2 phase_of_le16 (fun _ => []) (fun _ => tt)
              two_saved_samples 7 (ramp_chunk 3 2)) as (rx' & out & Hrun).
  exists rx', out. split; [exact Hrun|].
  exact (HandleSamples_keeps_last_samples check_only_decoder unit 2 phase_of_le16
           (fun _ => []) (fun _ => tt) two_saved_samples 7 (ramp_chunk 3 2) rx' out
           ltac:(lia) ltac:(vm_compute; congruence) ltac:(vm_compute; congruence)
           ltac:(reflexivity) ltac:(vm_compute; congruence) Hrun).
Defined.

Lemma HandleChunks_keeps_receiver_ok_witness :
  exists rx' out,
    HandleChunks_le16 fresh_receiver [(1, ramp_chunk 0 100); (5, ramp_chunk 100 3)]
      = Some (rx', out) /\
    0 <= saved_samples_ rx' <= 8904 /\
    saved_samples_ rx' * 2 <= Z.of_nat (length (samples_ rx')).
Proof.
  exact (HandleChunks_keeps_receiver_ok check_only_decoder check_only_decoder_length
           check_only_decoder_bound unit 2 phase_of_le16 (fun _ => []) (fun _ => tt)
           [(1, ramp_chunk 0 100); (5, ramp_chunk 100 3)] ltac:(lia)
           ltac:(repeat constructor)).
Defined.
